(** * editorconfig-cli: a shallow embedding of [src/index.js]

    The program is a thin command-line driver around the [lintspaces]
    validator.  Its own logic is: resolve the settings, expand the input
    (literal paths, globs, or the patterns of a JSON manifest), filter
    glob results against the exclusion patterns, stat each path, validate
    the files, print the reports and end with the exit code it keeps.

    The embedding keeps the shape of the script:
    - everything the script asks of Node, commander, glob, lintspaces and
      colors is a field of a [World] record (the file system is read-only
      during a run);
    - the script's own statements are written in a small state monad [M]
      with two ways of leaving early, a JavaScript exception ([Throw]) and
      [process.exit] ([Exit]);
    - asynchronous callbacks are [Task]s kept in the [pending] set of the
      state; the event loop is the relation [step], which may pick any
      pending task, and fires [beforeExit] when none is left. *)

From Stdlib Require Import String Ascii List ZArith NArith Bool Lia QArith DecimalString.
Import ListNotations.
Close Scope Q_scope.
Open Scope string_scope.
Open Scope list_scope.

Set Implicit Arguments.
Set Warnings "-register-all".

(** ** JavaScript values the script handles *)

(** The rendering of a thrown value by [`${e}`]. *)
Definition Error : Type := string.

(** The outcome of a call that either returns or throws (for a Node
    callback: [err] is set; for a promise: it is rejected). *)
Inductive Completion (A : Type) : Type :=
| Return (a : A)
| Raise (e : Error).
Arguments Raise {A} e.

(** What [JSON.parse] can return. Object entries are in [Object.entries]
    order. *)
Inductive JSON : Type :=
| JNull
| JBool (b : bool)
| JNumber (q : Q)
| JString (s : string)
| JArray (items : list JSON)
| JObject (entries : list (string * JSON)).

Definition dquote : string := String "034" EmptyString.
Definition newline : string := String "010" EmptyString.

(** [String.prototype.toLowerCase], on the ASCII range; the script applies
    it to the [type] of a report entry only. *)
Definition lower_ascii (c : ascii) : ascii :=
  let n := nat_of_ascii c in
  if (65 <=? n)%nat && (n <=? 90)%nat then ascii_of_nat (n + 32) else c.

Fixpoint toLowerCase (s : string) : string :=
  match s with
  | EmptyString => EmptyString
  | String c rest => String (lower_ascii c) (toLowerCase rest)
  end.

(** [Array.prototype.join(",")], as [`${array}`] renders an array of
    strings. *)
Definition join (l : list string) : string := String.concat "," l.

(** Truthiness of a value that is a string, [null] or [undefined]. *)
Definition truthy (v : option string) : bool :=
  match v with
  | Some s => negb (s =? EmptyString)
  | None => false
  end.

(** [`${v}`] for such a value. *)
Definition str (v : option string) : string :=
  match v with
  | Some s => s
  | None => "null"
  end.

(** Truthiness of [JSON.parse(data)[name]]; [None] is [undefined]. *)
Definition truthyJSON (v : option JSON) : bool :=
  match v with
  | None => false
  | Some JNull => false
  | Some (JBool b) => b
  | Some (JNumber q) => negb (Qeq_bool q 0)
  | Some (JString s) => negb (s =? EmptyString)
  | Some (JArray _) => true
  | Some (JObject _) => true
  end.

Fixpoint lookup (name : string) (entries : list (string * JSON)) : option JSON :=
  match entries with
  | [] => None
  | (k, v) :: rest => if k =? name then Some v else lookup name rest
  end.

Definition jsLength (n : nat) : JSON := JNumber (inject_Z (Z.of_nat n)).

Definition TypeError_null (name : string) : Error :=
  ("TypeError: Cannot read properties of null (reading '" ++ name ++ "')")%string.

(** Property read [v[name]] for the two names the script reads,
    ["editorconfig-cli"] and ["length"] (neither is an array index).
    Reading a property of [null] throws. *)
Definition getProperty (v : JSON) (name : string) : Completion (option JSON) :=
  match v with
  | JNull => Raise (TypeError_null name)
  | JObject entries => Return (lookup name entries)
  | JArray items =>
      Return (if name =? "length" then Some (jsLength (List.length items)) else None)
  | JString s =>
      Return (if name =? "length" then Some (jsLength (String.length s)) else None)
  | JBool _ => Return None
  | JNumber _ => Return None
  end.

(** [v.length === 0]; the script evaluates it for a truthy [v] only. *)
Definition lengthIsZero (v : option JSON) : bool :=
  match v with
  | Some p =>
      match getProperty p "length" with
      | Return (Some (JNumber q)) => Qeq_bool q 0
      | _ => false
      end
  | None => false
  end.

Definition TypeError_primitive : Error :=
  "TypeError: Cannot convert object to primitive value".

(** [String(v)], as a template literal converts a value [JSON.parse]
    returned. An array is joined with commas, [null] elements giving the
    empty string. An object inherits [Object.prototype.toString] unless it
    has a key ["toString"] of its own: no JSON value is callable, and
    [valueOf] then gives no primitive either, so the conversion throws.
    [number] is [Number.prototype.toString]. *)
Fixpoint ToString (number : Q -> string) (v : JSON) : Completion string :=
  match v with
  | JNull => Return "null"
  | JBool b => Return (if b then "true" else "false")
  | JNumber q => Return (number q)
  | JString s => Return s
  | JArray items =>
      match
        (fix elements (l : list JSON) : Completion (list string) :=
           match l with
           | [] => Return []
           | item :: rest =>
               match
                 match item with
                 | JNull => Return EmptyString
                 | _ => ToString number item
                 end
               with
               | Raise e => Raise e
               | Return text =>
                   match elements rest with
                   | Raise e => Raise e
                   | Return texts => Return (text :: texts)
                   end
               end
           end) items
      with
      | Raise e => Raise e
      | Return texts => Return (join texts)
      end
  | JObject entries =>
      match lookup "toString" entries with
      | Some _ => Raise TypeError_primitive
      | None => Return "[object Object]"
      end
  end.

(** The string iterator yields code points, not code units. Strings are
    kept UTF-8 encoded: a byte [10xxxxxx] continues the character before
    it. *)
Definition isContinuation (c : ascii) : bool :=
  let n := nat_of_ascii c in (128 <=? n)%nat && (n <? 192)%nat.

Fixpoint codePoints (s : string) : list string :=
  match s with
  | EmptyString => []
  | String c rest =>
      match codePoints rest with
      | chunk :: chunks =>
          if match chunk with String d _ => isContinuation d | EmptyString => false end
          then String c chunk :: chunks
          else String c EmptyString :: chunk :: chunks
      | [] => [String c EmptyString]
      end
  end.

Definition TypeError_not_iterable : Error := "TypeError: args is not iterable".

(** What [for (const it of v)] yields. Arrays and strings have their own
    iterators; every other object, boxed primitives included, inherits the
    one the script installs on [Object.prototype], which yields the
    [[key, value]] pairs of [Object.entries]. [null] and [undefined] are
    not iterable. *)
Definition iterate (v : option JSON) : Completion (list JSON) :=
  match v with
  | Some (JArray items) => Return items
  | Some (JString s) => Return (map JString (codePoints s))
  | Some (JObject entries) =>
      Return (map (fun kv => JArray [JString (fst kv); snd kv]) entries)
  | Some (JBool _) => Return []
  | Some (JNumber _) => Return []
  | Some JNull => Raise TypeError_not_iterable
  | None => Raise TypeError_not_iterable
  end.

(** ** Data of the script *)

Definition VERBOSE_KEYS : list string := ["-v"; "--verbose"].
Definition DEFAULT_EDITORCONFIG_NAME : string := ".editorconfig".
Definition JSON_CONFIG_PROPERTY_NAME : string := "editorconfig-cli".
Definition DEFAULT_JSON_FILENAME : string := "package.json".

(** The value of the [ignores] option: the default array, or the string
    given with [-i]. *)
Inductive Ignores : Type :=
| IgnoresList (profiles : list string)
| IgnoresValue (profile : string).

Record Settings : Type := {
  editorconfig : option string;
  ignores : Ignores;
  json : string;
  exclude : list string
}.

(** One entry of a lintspaces report. *)
Record LintError : Type := {
  line : N;
  message : string;
  type : string
}.

(** [validator.getInvalidFiles()]: file name -> line key -> entries, each
    level in [Object.entries] order. *)
Definition Report : Type := list (string * list (string * list LintError)).

Record RegExp : Type := { source : string }.

(** The command line as commander hands it over: the raw [process.argv],
    the option occurrences in the order given, and [program.args]. The
    script reads the option values as properties of [program]; the
    embedding takes commander to store them there. *)
Inductive Opt : Type :=
| OptEditorconfig (file : string)
| OptIgnores (profile : string)
| OptJson (file : string)
| OptExclude (regexp : string)
| OptVerbose.

Record Invocation : Type := {
  argv : list string;
  options : list Opt;
  args : list string
}.

(** Option values commander stores on [program]. *)
Module Commander.
Record Program : Type := {
  editorconfig : option string;
  ignores : Ignores;
  json : option string;
  exclude : list string
}.

(** The defaults declared with [.option(...)]. *)
Definition defaults : Program :=
  {| editorconfig := None;
     ignores := IgnoresList ["js-comments"; "html-comments"];
     json := None;
     exclude := ["/normalize.*"] |}.
End Commander.

(** ** The environment *)

Record World : Type := {
  (* node:path, node:fs *)
  pathResolve : string -> string;
  existsSync : string -> bool;
  lstat : string -> Completion bool;          (* [stat.isDirectory()] *)
  readFile : string -> Completion string;
  (* built-ins *)
  JSON_parse : string -> Completion JSON;
  numberToString : Q -> string;
  regexp_error : string -> option Error;      (* [SyntaxError] of [new RegExp] *)
  regexp_test : RegExp -> string -> bool;
  regexp_toString : RegExp -> string;
  inspect : Settings -> string;
  (* glob, lintspaces, colors *)
  glob : string -> Completion (list string);
  lintspaces : Settings -> string -> Completion Report;
  (* [types.WARNING], read off the namespace object of
     [import * as types from "lintspaces/src/constants/types.js"]; [None]
     is [undefined]. That file is CommonJS and assigns [module.exports] an
     object literal of string values, for which Node detects no named
     export: the namespace object has no [WARNING], and the property is
     [undefined] in every run under Node. *)
  types_WARNING : option string;
  red : string -> string;
  green : string -> string;
  underline : string -> string
}.

(** ** Effects *)

(** Callbacks waiting in the event loop. *)
Inductive Task : Type :=
| TLstat (filePath : string)
| TGlob (it : string)
| TReadFile (found : string).

(** What a run does that can be observed. *)
Inductive Event : Type :=
| ConsoleLog (message : string)
| ConsoleWarn (message : string)
| Lstat (filePath : string)         (* [validate] asked for the stat *)
| Glob (pattern : string)           (* the glob engine was called *)
| ReadFile (found : string)         (* the manifest read was started *)
| Validate (filePath : string)      (* the validator was run on the file *)
| Help                              (* [program.help()] printed the usage *)
| BeforeExit.                       (* the [beforeExit] listener ran *)

Record State : Type := {
  exitCode : Z;
  pending : list Task;
  trace : list Event
}.

(** The state in which the module body starts. [exitCode] is declared,
    with 0, in the course of it. *)
Definition initial : State := {| exitCode := 0; pending := []; trace := [] |}.

Inductive Result (A : Type) : Type :=
| Ok (a : A) (s : State)
| Throw (e : Error) (s : State)
| Exit (code : Z) (s : State).
Arguments Throw {A} e s.
Arguments Exit {A} code s.

Definition M (A : Type) : Type := State -> Result A.

Definition ret {A} (a : A) : M A := fun s => Ok a s.

Definition bind {A B} (c : M A) (k : A -> M B) : M B :=
  fun s =>
    match c s with
    | Ok a s' => k a s'
    | Throw e s' => Throw e s'
    | Exit code s' => Exit code s'
    end.

Notation "x <- c ;; k" := (bind c (fun x => k))
  (at level 61, c at next level, right associativity).
Notation "c ;; k" := (bind c (fun _ => k))
  (at level 61, right associativity).

Definition throw {A} (e : Error) : M A := fun s => Throw e s.

(** [process.exit(code)] *)
Definition process_exit {A} (code : Z) : M A := fun s => Exit code s.

(** [try { c } catch (e) { handler e }]; [process.exit] is not caught. *)
Definition try_catch {A} (c : M A) (handler : Error -> M A) : M A :=
  fun s =>
    match c s with
    | Throw e s' => handler e s'
    | r => r
    end.

Definition lift {A} (c : Completion A) : M A :=
  match c with
  | Return a => ret a
  | Raise e => throw e
  end.

Definition emit (e : Event) : M unit :=
  fun s => Ok tt {| exitCode := exitCode s; pending := pending s; trace := trace s ++ [e] |}.

Definition spawn (t : Task) : M unit :=
  fun s => Ok tt {| exitCode := exitCode s; pending := pending s ++ [t]; trace := trace s |}.

Definition setExitCode (code : Z) : M unit :=
  fun s => Ok tt {| exitCode := code; pending := pending s; trace := trace s |}.

(** [for (const x of l) body(x)] and [l.forEach(body)] *)
Fixpoint forEach {A} (l : list A) (body : A -> M unit) : M unit :=
  match l with
  | [] => ret tt
  | x :: rest => body x ;; forEach rest body
  end.

(** [l.some(test)]: stops at the first element for which [test] holds. *)
Fixpoint some {A} (l : list A) (test : A -> M bool) : M bool :=
  match l with
  | [] => ret false
  | x :: rest => b <- test x ;; if b then ret true else some rest test
  end.

(** [l.map(f)] for an [f] that can throw. *)
Fixpoint mapM {A B} (f : A -> M B) (l : list A) : M (list B) :=
  match l with
  | [] => ret []
  | x :: rest => y <- f x ;; ys <- mapM f rest ;; ret (y :: ys)
  end.

(** ** The script *)

Section Script.

Variable w : World.
Variable inv : Invocation.

(** [process.argv.some((element) => VERBOSE_KEYS.includes(element))] *)
Definition VERBOSE : bool :=
  existsb (fun element => existsb (String.eqb element) VERBOSE_KEYS) (argv inv).

(** *** [log] *)

Definition log_fatal (message : string) : M unit :=
  emit (ConsoleLog (red w message)) ;;
  process_exit 1.

Definition log_info (message : string) : M unit := emit (ConsoleLog message).

Definition log_error (message : string) : M unit := emit (ConsoleWarn message).

Definition log_debug (message : string) : M unit :=
  if VERBOSE then emit (ConsoleLog message) else ret tt.

(** *** Settings *)

Definition resolve (filename : string) : option string :=
  let resolved := pathResolve w filename in
  if existsSync w resolved then Some resolved else None.

Definition checkEditorConfig (filename : string) : M (option string) :=
  let filePath := resolve filename in
  if negb (truthy filePath) then
    log_fatal ("Error: Specified .editorconfig " ++ dquote ++ filename ++ dquote
               ++ " doesn't exist")%string ;;
    ret None
  else
    log_info ("Using '.editorconfig' from: " ++ dquote ++ str filePath ++ dquote)%string ;;
    ret (Some filename).

Definition collect (value : string) (memo : list string) : list string :=
  memo ++ [value].

(** [program.option(...)....parse(process.argv)]: commander takes the
    option occurrences from left to right; an option declared with a
    function stores what the function returns for the argument and the
    previous value, the others store the argument. *)
Fixpoint parse (opts : list Opt) (program : Commander.Program) : M Commander.Program :=
  match opts with
  | [] => ret program
  | OptEditorconfig file :: rest =>
      v <- checkEditorConfig file ;;
      parse rest {| Commander.editorconfig := v;
                    Commander.ignores := Commander.ignores program;
                    Commander.json := Commander.json program;
                    Commander.exclude := Commander.exclude program |}
  | OptIgnores profile :: rest =>
      parse rest {| Commander.editorconfig := Commander.editorconfig program;
                    Commander.ignores := IgnoresValue profile;
                    Commander.json := Commander.json program;
                    Commander.exclude := Commander.exclude program |}
  | OptJson file :: rest =>
      parse rest {| Commander.editorconfig := Commander.editorconfig program;
                    Commander.ignores := Commander.ignores program;
                    Commander.json := Some file;
                    Commander.exclude := Commander.exclude program |}
  | OptExclude regexp :: rest =>
      parse rest {| Commander.editorconfig := Commander.editorconfig program;
                    Commander.ignores := Commander.ignores program;
                    Commander.json := Commander.json program;
                    Commander.exclude := collect regexp (Commander.exclude program) |}
  | OptVerbose :: rest => parse rest program
  end.

(** The [settings] object. An array is truthy, so [program.exclude || []]
    is [program.exclude]. *)
Definition makeSettings (program : Commander.Program) : M Settings :=
  ec <- (if truthy (Commander.editorconfig program)
         then ret (Commander.editorconfig program)
         else checkEditorConfig DEFAULT_EDITORCONFIG_NAME) ;;
  ret {| editorconfig := ec;
         ignores := Commander.ignores program;
         json := (if truthy (Commander.json program)
                  then str (Commander.json program)
                  else DEFAULT_JSON_FILENAME);
         exclude := Commander.exclude program |}.

(** *** Report printer *)

(** [type.toLowerCase() === types.WARNING]; a string is never strictly
    equal to [undefined]. *)
Definition isWarning (err : LintError) : bool :=
  match types_WARNING w with
  | Some marker => toLowerCase (type err) =? marker
  | None => false
  end.

Definition printReport (report : Report) : M unit :=
  forEach report (fun file_info =>
    log_error (underline w (red w (newline ++ "File: " ++ fst file_info)%string)) ;;
    forEach (snd file_info) (fun key_line =>
      forEach (snd key_line) (fun err =>
        let warn := isWarning err in
        let type' := if warn then red w (type err) else green w (type err) in
        (if warn then setExitCode 1 else ret tt) ;;
        log_error ("Line: " ++ NilEmpty.string_of_uint (N.to_uint (line err)) ++ " "
                   ++ message err ++ " [" ++ type' ++ "]")%string))).

(** *** Validation dispatcher *)

Definition validate (filePath : string) : M unit :=
  log_debug ("Loading " ++ filePath ++ "...")%string ;;
  emit (Lstat filePath) ;;
  spawn (TLstat filePath).

(** The callback of [lstat] in [validate]. *)
Definition onLstat (settings : Settings) (filePath : string) : M unit :=
  match lstat w filePath with
  | Raise err => throw err
  | Return isDirectory =>
      if negb isDirectory then
        log_debug ("Validating '" ++ filePath ++ "'...")%string ;;
        emit (Validate filePath) ;;
        report <- lift (lintspaces w settings filePath) ;;
        printReport report
      else ret tt
  end.

(** *** Exclusion filter *)

(** [new RegExp(regexp)] *)
Definition RegExp_new (regexp : string) : M RegExp :=
  match regexp_error w regexp with
  | Some e => throw e
  | None => ret {| source := regexp |}
  end.

Definition onFile (excludes : list RegExp) (file : string) : M unit :=
  let myPath := file in
  matches <- some excludes (fun exclude =>
    log_debug ("Testing file '" ++ myPath ++ "' on '" ++ regexp_toString w exclude ++ "'")%string ;;
    let excluded := regexp_test w exclude myPath in
    (if excluded
     then log_info ("File: " ++ myPath ++ " [" ++ green w "excluded" ++ "]")%string
     else ret tt) ;;
    ret excluded) ;;
  if negb matches then validate myPath else ret tt.

(** *** Input expander *)

(** Node's error for a path argument of the wrong type (abridged). *)
Definition ERR_INVALID_ARG_TYPE : Error :=
  "TypeError [ERR_INVALID_ARG_TYPE]: The path argument must be of type string".

(** One round of the loop of [processInput]. [path.resolve] throws on an
    argument that is not a string. *)
Definition processItem (it : JSON) : M unit :=
  match it with
  | JString it =>
      let resolved := resolve it in
      if truthy resolved then validate (str resolved)
      else
        log_debug ("Calling GLOB: " ++ it)%string ;;
        emit (Glob it) ;;
        spawn (TGlob it)
  | _ => throw ERR_INVALID_ARG_TYPE
  end.

Definition processInput (args : option JSON) : M unit :=
  items <- lift (iterate args) ;;
  forEach items processItem.

(** The two handlers given to [glob(...).then]. *)
Definition onGlob (excludes : list RegExp) (it : string) : M unit :=
  match glob w it with
  | Return files => forEach files (onFile excludes)
  | Raise err => throw err
  end.

(** [program.help()]: commander prints the usage and exits with
    [process.exitCode || 0]; the script never sets [process.exitCode]. *)
Definition program_help : M unit :=
  emit Help ;;
  process_exit 0.

(** [`${patterns}`] *)
Definition render (v : option JSON) : Completion string :=
  match v with
  | Some p => ToString (numberToString w) p
  | None => Return "undefined"
  end.

(** The callback of [readFile]. *)
Definition onReadFile (found : string) : M unit :=
  log_debug ("Reading GLOBs from file: '" ++ found ++ "...")%string ;;
  try_catch
    (data <- lift (readFile w found) ;;
     parsed <- lift (JSON_parse w data) ;;
     patterns <- lift (getProperty parsed JSON_CONFIG_PROPERTY_NAME) ;;
     if negb (truthyJSON patterns) || lengthIsZero patterns then
       log_info "Nothing to do =(" ;;
       program_help
     else
       text <- lift (render patterns) ;;
       log_info ("Loaded GLOBs from '" ++ found ++ "': " ++ text)%string ;;
       processInput patterns)
    (fun e => log_error (red w ("Failed to read JSON file: " ++ e)%string)).

(** [readFile(found, `utf8`, callback)]: Node checks the path argument
    before it schedules anything, and throws on [null]. *)
Definition readFile_start (found : option string) : M unit :=
  match found with
  | Some path => emit (ReadFile path) ;; spawn (TReadFile path)
  | None => throw ERR_INVALID_ARG_TYPE
  end.

(** *** The module body *)

(** The constants of the module that the callbacks close over. *)
Record Loaded : Type := {
  settings : Settings;
  excludes : list RegExp
}.

(** The last statement of the module: the manifest is the input when no
    argument was given. [program.args] is an array, so [args] is it. *)
Definition dispatch (settings : Settings) : M unit :=
  if (List.length (args inv) =? 0)%nat then
    let found := resolve (json settings) in
    readFile_start found
  else
    processInput (Some (JArray (map JString (args inv)))).

Definition main : M Loaded :=
  program <- parse (options inv) Commander.defaults ;;
  settings <- makeSettings program ;;
  log_debug ("Using settings: " ++ inspect w settings)%string ;;
  log_debug ("Passed args: '" ++ join (args inv) ++ "'")%string ;;
  setExitCode 0 ;;
  excludes <- mapM RegExp_new (exclude settings) ;;
  dispatch settings ;;
  ret {| settings := settings; excludes := excludes |}.

(** *** The event loop *)

Definition runTask (m : Loaded) (t : Task) : M unit :=
  match t with
  | TLstat filePath => onLstat (settings m) filePath
  | TGlob it => onGlob (excludes m) it
  | TReadFile found => onReadFile found
  end.

Inductive Config : Type :=
| Running (m : Loaded) (s : State)
| Exited (code : Z) (tr : list Event)
| Crashed (e : Error) (tr : list Event).

(** How a callback, or the module body, leaves the process. An exception
    nobody catches kills it. *)
Definition settle (r : Result Loaded) : Config :=
  match r with
  | Ok m s => Running m s
  | Throw e s => Crashed e (trace s)
  | Exit code s => Exited code (trace s)
  end.

Definition boot : Config := settle (main initial).

Definition without (s : State) (rest : list Task) : State :=
  {| exitCode := exitCode s; pending := rest; trace := trace s |}.

(** One turn of the loop: any pending callback may be the next one; with
    none left Node emits [beforeExit], whose listener calls
    [process.exit(exitCode)]. *)
Inductive step : Config -> Config -> Prop :=
| step_task m s before t after :
    pending s = before ++ t :: after ->
    step (Running m s)
         (settle (bind (runTask m t) (fun _ => ret m) (without s (before ++ after))))
| step_beforeExit m s :
    pending s = [] ->
    step (Running m s) (Exited (exitCode s) (trace s ++ [BeforeExit])).

Inductive Reachable : Config -> Prop :=
| reach_boot : Reachable boot
| reach_step c c' : Reachable c -> step c c' -> Reachable c'.

(** The schedule that always takes the oldest callback. *)
Definition next (c : Config) : Config :=
  match c with
  | Running m s =>
      match pending s with
      | [] => Exited (exitCode s) (trace s ++ [BeforeExit])
      | t :: rest => settle (bind (runTask m t) (fun _ => ret m) (without s rest))
      end
  | _ => c
  end.

Fixpoint run (fuel : nat) (c : Config) : Config :=
  match fuel with
  | O => c
  | S fuel' => run fuel' (next c)
  end.

(** The exit status the shell sees: Node exits with 1 on an uncaught
    exception. *)
Definition exitStatus (c : Config) : option Z :=
  match c with
  | Running _ _ => None
  | Exited code _ => Some code
  | Crashed _ _ => Some 1%Z
  end.

Definition traceOf (c : Config) : list Event :=
  match c with
  | Running _ s => trace s
  | Exited _ tr => tr
  | Crashed _ tr => tr
  end.

End Script.

(** ** Vocabulary of the properties *)

(** Events of the input expander and of the exclusion filter: console
    output, stats asked for, globs started, the usage text. *)
Definition inputEvent (e : Event) : Prop :=
  match e with
  | ConsoleLog _ | ConsoleWarn _ | Lstat _ | Glob _ | Help => True
  | ReadFile _ | Validate _ | BeforeExit => False
  end.

Definition consoleEvent (e : Event) : Prop :=
  match e with
  | ConsoleLog _ | ConsoleWarn _ => True
  | _ => False
  end.

(** The empty class. *)
Definition never {A : Type} (_ : A) : Prop := False.

Definition inputTask (t : Task) : Prop :=
  match t with
  | TLstat _ | TGlob _ => True
  | TReadFile _ => False
  end.

Definition isLstat (e : Event) : bool :=
  match e with Lstat _ => true | _ => false end.

Definition isGlob (e : Event) : bool :=
  match e with Glob _ => true | _ => false end.

Definition pendingOf (c : Config) : list Task :=
  match c with
  | Running _ s => pending s
  | _ => []
  end.

(** All entries of a report, in printing order. *)
Definition entries (report : Report) : list LintError :=
  flat_map (fun file_info => flat_map (fun key_line => snd key_line) (snd file_info)) report.

(** Some report printed so far (one per [Validate] event) has an entry
    that satisfies [counts]. *)
Definition reported (w : World) (settings : Settings) (counts : LintError -> bool)
  (tr : list Event) : Prop :=
  exists filePath report err,
    In (Validate filePath) tr /\
    lintspaces w settings filePath = Return report /\
    In err (entries report) /\
    counts err = true.

(** [s'] is [s] after console output only, with the exit code set to 1
    if [b] holds. *)
Definition printed (b : bool) (s s' : State) : Prop :=
  exitCode s' = (if b then 1%Z else exitCode s) /\
  pending s' = pending s /\
  exists evs, trace s' = trace s ++ evs /\ Forall consoleEvent evs.

(** The events of the callback of [lstat] for [filePath]: console output,
    and the validator run, on a path that is not a directory. *)
Definition validating (w : World) (filePath : string) (e : Event) : Prop :=
  consoleEvent e \/ (e = Validate filePath /\ lstat w filePath = Return false).

(** The events of the module body. *)
Definition startEvent (e : Event) : Prop :=
  inputEvent e \/ exists found, e = ReadFile found.

Definition anyTask (t : Task) : Prop := True.

(** The events of any callback. *)
Definition callbackEvent (w : World) (e : Event) : Prop :=
  inputEvent e \/ exists filePath, e = Validate filePath /\ lstat w filePath = Return false.

(** What [log.fatal] prints for a missing editorconfig file. *)
Definition fatalMessage (w : World) (filename : string) : Event :=
  ConsoleLog (red w ("Error: Specified .editorconfig " ++ dquote ++ filename ++ dquote
                     ++ " doesn't exist")%string).

(** The options given with [-x], in order. *)
Definition userExcludes (opts : list Opt) : list string :=
  flat_map (fun o => match o with OptExclude regexp => [regexp] | _ => [] end) opts.

Definition hasEditorconfigFlag (opts : list Opt) : bool :=
  existsb (fun o => match o with OptEditorconfig _ => true | _ => false end) opts.

(** What [log.debug] prints. *)
Definition debugLine (inv : Invocation) (message : string) : list Event :=
  if VERBOSE inv then [ConsoleLog message] else [].

(** What one round of [processInput] does for a string argument, as
    events and as callbacks. *)
Definition eventsFor (w : World) (inv : Invocation) (it : string) : list Event :=
  if truthy (resolve w it)
  then debugLine inv ("Loading " ++ str (resolve w it) ++ "...")%string
       ++ [Lstat (str (resolve w it))]
  else debugLine inv ("Calling GLOB: " ++ it)%string ++ [Glob it].

Definition tasksFor (w : World) (it : string) : list Task :=
  if truthy (resolve w it) then [TLstat (str (resolve w it))] else [TGlob it].

(** What the callback of the manifest read prints when there is no
    pattern. *)
Definition nothingToDo (inv : Invocation) (found : string) : list Event :=
  debugLine inv ("Reading GLOBs from file: '" ++ found ++ "...")%string
  ++ [ConsoleLog "Nothing to do =("; Help].

(** What the callback of the manifest read prints before it handles the
    patterns, and when it has caught an error. *)
Definition loadedLines (inv : Invocation) (found : string) (text : string)
  : list Event :=
  debugLine inv ("Reading GLOBs from file: '" ++ found ++ "...")%string
  ++ [ConsoleLog ("Loaded GLOBs from '" ++ found ++ "': " ++ text)%string].

Definition failureLines (w : World) (inv : Invocation) (found : string) (e : Error)
  : list Event :=
  debugLine inv ("Reading GLOBs from file: '" ++ found ++ "...")%string
  ++ [ConsoleWarn (red w ("Failed to read JSON file: " ++ e)%string)].

(** *** Two sentences of the specification, as they are written *)

(** "If a report contains at least one entry of severity warning or error
    (case-insensitive), the exit code is 1": the entries that sentence
    counts. *)
Definition isWarningOrError (err : LintError) : bool :=
  (toLowerCase (type err) =? "warning") || (toLowerCase (type err) =? "error").

(** "If no flag supplied, probe for a default-named file; absence is
    non-fatal (field becomes null)". *)
Definition defaultAbsenceNonFatal (w : World) (inv : Invocation) : Prop :=
  hasEditorconfigFlag (options inv) = false ->
  existsSync w (pathResolve w DEFAULT_EDITORCONFIG_NAME) = false ->
  exists m s, boot w inv = Running m s /\ editorconfig (settings m) = None.

(** ** Concrete environments *)

Module Demo.

Definition cwd : string := "/work".

Definition absolute (filename : string) : string :=
  if String.prefix "/" filename then filename else (cwd ++ "/" ++ filename)%string.

Fixpoint contains (needle hay : string) : bool :=
  String.prefix needle hay ||
  match hay with
  | EmptyString => false
  | String _ rest => contains needle rest
  end.

Fixpoint assoc {A} (key : string) (l : list (string * A)) : option A :=
  match l with
  | [] => None
  | (k, v) :: rest => if k =? key then Some v else assoc key rest
  end.

Definition mem (key : string) (l : list string) : bool := existsb (String.eqb key) l.

(** A file tree (absolute paths), the answers of the glob engine, of
    [JSON.parse] and of the validator. *)
Record Fixture : Type := {
  dirs : list string;
  files : list (string * string);
  globs : list (string * list string);
  jsons : list (string * JSON);
  reports : list (string * Report)
}.

Definition esc : string := String "027" EmptyString.

(** The patterns used below are of the form [literal.*]: they match the
    strings that contain the literal. *)
Definition literalOf (regexp : string) : string :=
  let n := String.length regexp in
  if (String.substring (n - 2) 2 regexp =? ".*") then String.substring 0 (n - 2) regexp
  else regexp.

Definition world (fx : Fixture) : World :=
  {| pathResolve := absolute;
     existsSync := fun p => mem p (dirs fx) || mem p (map fst (files fx));
     lstat := fun p =>
       if mem (absolute p) (dirs fx) then Return true
       else if mem (absolute p) (map fst (files fx)) then Return false
       else Raise ("Error: ENOENT: no such file or directory, lstat '" ++ p ++ "'")%string;
     readFile := fun p =>
       match assoc (absolute p) (files fx) with
       | Some data => Return data
       | None => Raise ("Error: ENOENT: no such file or directory, open '" ++ p ++ "'")%string
       end;
     JSON_parse := fun data =>
       match assoc data (jsons fx) with
       | Some v => Return v
       | None => Raise "SyntaxError: Unexpected token in JSON"
       end;
     (* the numbers of the fixtures are integers *)
     numberToString := fun q =>
       NilEmpty.string_of_int (Z.to_int (Qnum q / Zpos (Qden q)));
     regexp_error := fun _ => None;
     regexp_test := fun r p => contains (literalOf (source r)) p;
     regexp_toString := fun r => ("/" ++ source r ++ "/")%string;
     inspect := fun _ => "{ ... }";
     glob := fun pattern =>
       match assoc pattern (globs fx) with
       | Some l => Return l
       | None => Return []
       end;
     lintspaces := fun _ p =>
       match assoc p (reports fx) with
       | Some r => Return r
       | None => Return []
       end;
     types_WARNING := None;
     red := fun s => (esc ++ "[31m" ++ s ++ esc ++ "[39m")%string;
     green := fun s => (esc ++ "[32m" ++ s ++ esc ++ "[39m")%string;
     underline := fun s => (esc ++ "[4m" ++ s ++ esc ++ "[24m")%string |}.

(** The words of an option on the command line. *)
Definition words (o : Opt) : list string :=
  match o with
  | OptEditorconfig file => ["-e"; file]
  | OptIgnores profile => ["-i"; profile]
  | OptJson file => ["-j"; file]
  | OptExclude regexp => ["-x"; regexp]
  | OptVerbose => ["-v"]
  end.

Definition node (opts : list Opt) (positional : list string) : Invocation :=
  {| argv := ["node"; "editorconfig-cli"] ++ flat_map words opts ++ positional;
     options := opts;
     args := positional |}.

(** A stylesheet named on the command line. *)
Definition vendored : Fixture :=
  {| dirs := ["/work"; "/work/lib"];
     files := [("/work/.editorconfig", "root = true"); ("/work/lib/normalize.css", "html{}")];
     globs := [("lib/*.css", ["lib/normalize.css"])];
     jsons := [];
     reports := [] |}.

(** The report of one finding of the given type in [a.js]. *)
Definition oneFinding (severity : string) : Report :=
  [("/work/a.js",
    [("1", [{| line := 1; message := "Unexpected trailing spaces found.";
               type := severity |}])])].

Definition oneWarning : Report := oneFinding "warning".

(** One file with one finding of the given type. *)
Definition finding (severity : string) : Fixture :=
  {| dirs := ["/work"];
     files := [("/work/.editorconfig", "root = true"); ("/work/a.js", "var a; ")];
     globs := [];
     jsons := [];
     reports := [("/work/a.js", oneFinding severity)] |}.

(** A project without an [.editorconfig]. *)
Definition bare : Fixture :=
  {| dirs := ["/work"];
     files := [("/work/README.md", "# readme")];
     globs := [];
     jsons := [];
     reports := [] |}.

(** A project with a sub-directory and, or not, a manifest. *)
Definition project (manifest : list (string * string)) (parsed : list (string * JSON)) : Fixture :=
  {| dirs := ["/work"; "/work/src"];
     files := ("/work/.editorconfig", "root = true") :: ("/work/README.md", "# readme")
              :: manifest;
     globs := [("src/**", ["src"; "src/a.js"])];
     jsons := parsed;
     reports := [] |}.

(** Two stylesheets behind one glob. *)
Definition globbed : Fixture :=
  {| dirs := ["/work"; "/work/lib"];
     files := [("/work/.editorconfig", "root = true");
               ("/work/lib/normalize.css", "html{}");
               ("/work/lib/site.css", "body{}")];
     globs := [("lib/*", ["lib/normalize.css"; "lib/site.css"])];
     jsons := [];
     reports := [] |}.

Definition emptyManifest : Fixture :=
  project [("/work/package.json", "manifest")]
          [("manifest", JObject [("editorconfig-cli", JArray [])])].

Definition patternsManifest : Fixture :=
  project [("/work/package.json", "manifest")]
          [("manifest",
            JObject [("editorconfig-cli", JArray [JString "src/**"; JString "README.md"])])].

(** A manifest with a stray value among the patterns. *)
Definition mixedUpManifest : Fixture :=
  project [("/work/package.json", "manifest")]
          [("manifest",
            JObject [("editorconfig-cli",
                      JArray [JString "README.md"; JBool true; JString "src/**"])])].

(** A manifest that is not JSON. *)
Definition brokenManifest : Fixture :=
  project [("/work/package.json", "{oops")] [].

(** A project with its configuration in a sub-directory. *)
Definition custom : Fixture :=
  {| dirs := ["/work"; "/work/conf"];
     files := [("/work/conf/lint.cfg", "root = true"); ("/work/conf/old.cfg", "root = true");
               ("/work/README.md", "# readme")];
     globs := [];
     jsons := [];
     reports := [] |}.

(** The environments and command lines of the examples. *)
Definition customWorld : World := world custom.
Definition customConfig : Invocation :=
  node [OptIgnores "java-comments"; OptEditorconfig "conf/old.cfg"; OptJson "a.json";
        OptIgnores "xml-comments"; OptEditorconfig "conf/lint.cfg"; OptJson "globs.json"]
       ["README.md"].
Definition patternsWorld : World := world patternsManifest.
Definition brokenWorld : World := world brokenManifest.
Definition mixedUpWorld : World := world mixedUpManifest.
Definition projectWorld : World := world (project [] []).
Definition readme : Invocation := node [] ["README.md"].
Definition sources : Invocation := node [] ["src/**"].
Definition noArguments : Invocation := node [] [].
Definition mixed : Invocation := node [] ["README.md"; "src/**"; "README.md"].
Definition someSettings : Settings :=
  {| editorconfig := Some ".editorconfig";
     ignores := IgnoresList ["js-comments"; "html-comments"];
     json := DEFAULT_JSON_FILENAME;
     exclude := ["/normalize.*"] |}.
Definition warningWorld : World := world (finding "warning").
Definition script : Invocation := node [] ["a.js"].
Definition twice : Invocation := node [] ["a.js"; "a.js"].
Definition bareWorld : World := world bare.
Definition vendoredWorld : World := world vendored.
Definition globbedWorld : World := world globbed.
Definition stylesheets : Invocation := node [] ["lib/*"].
Definition stylesheet : Invocation := node [] ["lib/normalize.css"].
Definition emptyManifestWorld : World := world emptyManifest.
Definition missingConfig : Invocation := node [OptEditorconfig "missing.cfg"] ["README.md"].
Definition moreExcludes : Invocation :=
  node [OptExclude "vendor/"; OptVerbose; OptExclude "dist/.*"] ["README.md"].

End Demo.

(** ** Reasoning about [M] *)

Definition stateOf {A} (r : Result A) : State :=
  match r with
  | Ok _ s => s
  | Throw _ s => s
  | Exit _ s => s
  end.

(** [s'] is [s] after some more events, all in [P], some more callbacks,
    all in [Q], and an exit code that is either the old one or in [X]. *)
Definition grows (P : Event -> Prop) (Q : Task -> Prop) (X : Z -> Prop)
  (s s' : State) : Prop :=
  (exitCode s' = exitCode s \/ X (exitCode s')) /\
  (exists evs, trace s' = trace s ++ evs /\ Forall P evs) /\
  (exists ts, pending s' = pending s ++ ts /\ Forall Q ts).

(** However [c] ends, it has only done that much. *)
Definition confined {A} (P : Event -> Prop) (Q : Task -> Prop) (X : Z -> Prop)
  (c : M A) : Prop :=
  forall s, grows P Q X s (stateOf (c s)).

(** How [c] can end: with an exception in [E], or with [process.exit] and
    a code in [C]. *)
Definition ends {A} (E : Error -> Prop) (C : Z -> Prop) (c : M A) : Prop :=
  forall s,
    match c s with
    | Ok _ _ => True
    | Throw e _ => E e
    | Exit code _ => C code
    end.

(** However [c] ends, the events and the callbacks it has added are
    related by [R]. *)
Definition effects {A} (R : list Event -> list Task -> Prop) (c : M A) : Prop :=
  forall s, exists evs ts,
    trace (stateOf (c s)) = trace s ++ evs /\
    pending (stateOf (c s)) = pending s ++ ts /\
    R evs ts.

(** *** Counting stats and validations of a path *)

Definition count {A} (f : A -> bool) (l : list A) : nat := List.length (filter f l).

Definition isLstatOf (p : string) (e : Event) : bool :=
  match e with Lstat q => q =? p | _ => false end.

Definition isValidateOf (p : string) (e : Event) : bool :=
  match e with Validate q => q =? p | _ => false end.

Definition isTLstatOf (p : string) (t : Task) : bool :=
  match t with TLstat q => q =? p | _ => false end.

(** No validator run, and as many stat requests as stat callbacks, for
    every path. *)
Definition paired (evs : list Event) (ts : list Task) : Prop :=
  forall p, count (isValidateOf p) evs = 0 /\
            count (isLstatOf p) evs = count (isTLstatOf p) ts.

(** At most one validator run, on [filePath], and nothing else but
    console output. *)
Definition validatesOnce (filePath : string) (evs : list Event) (ts : list Task) : Prop :=
  ts = [] /\
  (Forall consoleEvent evs \/
   exists before after,
     evs = before ++ Validate filePath :: after /\
     Forall consoleEvent before /\ Forall consoleEvent after).

(** *** A measure of the work left *)

Definition globWeight (w : World) (it : string) : nat :=
  match glob w it with
  | Return files => List.length files
  | Raise _ => 0
  end.

(** The callbacks one item of [processInput] can start, and theirs. *)
Definition itemWeight (w : World) (it : JSON) : nat :=
  match it with
  | JString it => if truthy (resolve w it) then 1 else 1 + globWeight w it
  | _ => 0
  end.

(** The items the callback of the manifest read iterates over. *)
Definition manifestItems (w : World) (found : string) : list JSON :=
  match readFile w found with
  | Return data =>
      match JSON_parse w data with
      | Return parsed =>
          match getProperty parsed JSON_CONFIG_PROPERTY_NAME with
          | Return patterns =>
              match iterate patterns with
              | Return items => items
              | Raise _ => []
              end
          | Raise _ => []
          end
      | Raise _ => []
      end
  | Raise _ => []
  end.

Definition weight (w : World) (t : Task) : nat :=
  match t with
  | TLstat _ => 1
  | TGlob it => 1 + globWeight w it
  | TReadFile found => 1 + list_sum (map (itemWeight w) (manifestItems w found))
  end.

Definition load (w : World) (ts : list Task) : nat := list_sum (map (weight w) ts).

(** A bound on the number of turns of the loop that are left. *)
Definition measure (w : World) (c : Config) : nat :=
  match c with
  | Running _ s => 1 + load w (pending s)
  | _ => 0
  end.

(** [c] adds callbacks of total weight at most [bound]. *)
Definition spawnsAtMost {A} (w : World) (bound : nat) (c : M A) : Prop :=
  forall s, exists ts,
    pending (stateOf (c s)) = pending s ++ ts /\ load w ts <= bound.

(** [n] turns of the loop. *)
Inductive turns (w : World) (inv : Invocation) : nat -> Config -> Config -> Prop :=
| turns_O c : turns w inv 0 c c
| turns_S n c c' c'' :
    step w inv c c' -> turns w inv n c' c'' -> turns w inv (S n) c c''.

(** *** The settings, read off the command line *)

Definition lastIgnores (opts : list Opt) (init : Ignores) : Ignores :=
  fold_left (fun acc o => match o with OptIgnores profile => IgnoresValue profile | _ => acc end)
            opts init.

Definition lastJson (opts : list Opt) (init : option string) : option string :=
  fold_left (fun acc o => match o with OptJson file => Some file | _ => acc end) opts init.

Definition lastEditorconfig (opts : list Opt) (init : option string) : option string :=
  fold_left (fun acc o => match o with OptEditorconfig file => Some file | _ => acc end)
            opts init.

Definition editorconfigOf (opts : list Opt) : string :=
  if truthy (lastEditorconfig opts None) then str (lastEditorconfig opts None)
  else DEFAULT_EDITORCONFIG_NAME.

Definition jsonOf (opts : list Opt) : string :=
  if truthy (lastJson opts None) then str (lastJson opts None) else DEFAULT_JSON_FILENAME.

(** The rule set of a command line, and whether it excludes a path. *)
Definition compiled (opts : list Opt) : list RegExp :=
  map (fun regexp => {| source := regexp |}) ("/normalize.*" :: userExcludes opts).

Definition excludedBy (w : World) (rules : list RegExp) (file : string) : bool :=
  existsb (fun exclude => regexp_test w exclude file) rules.

(** Where a stat request can come from, with positional arguments: an
    argument that resolves, or a result of the glob of one that does not,
    which no rule excludes. *)
Definition fromArguments (w : World) (inv : Invocation) (p : string) : Prop :=
  (exists it, In it (args inv) /\ truthy (resolve w it) = true /\ p = str (resolve w it)) \/
  (exists it files,
     In it (args inv) /\ truthy (resolve w it) = false /\
     glob w it = Return files /\ In p files /\
     excludedBy w (compiled (options inv)) p = false).

Definition originEvent (w : World) (inv : Invocation) (e : Event) : Prop :=
  match e with
  | Lstat p => fromArguments w inv p
  | Validate p => fromArguments w inv p
  | ReadFile _ => False
  | _ => True
  end.

Definition originTask (w : World) (inv : Invocation) (t : Task) : Prop :=
  match t with
  | TLstat p => fromArguments w inv p
  | TGlob it => In it (args inv) /\ truthy (resolve w it) = false
  | TReadFile _ => False
  end.

(** *** The lines of a report *)

Definition headerLine (w : World) (filename : string) : Event :=
  ConsoleWarn (underline w (red w (newline ++ "File: " ++ filename)%string)).

(** The line of an entry that is not taken for a warning. *)
Definition entryLine (w : World) (err : LintError) : Event :=
  ConsoleWarn ("Line: " ++ NilEmpty.string_of_uint (N.to_uint (line err)) ++ " "
               ++ message err ++ " [" ++ green w (type err) ++ "]")%string.

Definition reportLines (w : World) (report : Report) : list Event :=
  flat_map (fun file_info =>
              headerLine w (fst file_info)
              :: flat_map (fun key_line => map (entryLine w) (snd key_line)) (snd file_info))
           report.

(** *** Why an uncaught exception can happen *)

Inductive CrashCause (w : World) (inv : Invocation) (e : Error) : Prop :=
| crash_regexp regexp :
    In regexp ("/normalize.*" :: userExcludes (options inv)) ->
    regexp_error w regexp = Some e -> CrashCause w inv e
| crash_manifest_missing :
    args inv = [] -> resolve w (jsonOf (options inv)) = None ->
    e = ERR_INVALID_ARG_TYPE -> CrashCause w inv e
| crash_lstat filePath :
    lstat w filePath = Raise e -> CrashCause w inv e
| crash_validator settings filePath :
    lstat w filePath = Return false ->
    lintspaces w settings filePath = Raise e -> CrashCause w inv e
| crash_glob it :
    glob w it = Raise e -> CrashCause w inv e.

Section Confined.

Variables (P : Event -> Prop) (Q : Task -> Prop) (X : Z -> Prop).

Lemma grows_refl s : grows P Q X s s.
Proof.
  repeat split; auto; exists []; rewrite app_nil_r; auto.
Qed.

Lemma grows_trans s1 s2 s3 :
  grows P Q X s1 s2 -> grows P Q X s2 s3 -> grows P Q X s1 s3.
Proof.
  intros (Hx1 & (e1 & He1 & Hp1) & (t1 & Ht1 & Hq1))
         (Hx2 & (e2 & He2 & Hp2) & (t2 & Ht2 & Hq2)).
  repeat split.
  - destruct Hx2 as [Hx2 | Hx2]; [rewrite Hx2; exact Hx1 | right; exact Hx2].
  - exists (e1 ++ e2). rewrite He2, He1, app_assoc. split; auto.
    apply Forall_app; auto.
  - exists (t1 ++ t2). rewrite Ht2, Ht1, app_assoc. split; auto.
    apply Forall_app; auto.
Qed.

Lemma confined_ret A (a : A) : confined P Q X (ret a).
Proof. intro s. apply grows_refl. Qed.

Lemma confined_throw A e : confined P Q X (@throw A e).
Proof. intro s. apply grows_refl. Qed.

Lemma confined_process_exit A code : confined P Q X (@process_exit A code).
Proof. intro s. apply grows_refl. Qed.

Lemma confined_lift A (c : Completion A) : confined P Q X (lift c).
Proof. destruct c; [apply confined_ret | apply confined_throw]. Qed.

Lemma confined_emit e : P e -> confined P Q X (emit e).
Proof.
  intros He s. repeat split; simpl; auto.
  - exists [e]. auto.
  - exists []. rewrite app_nil_r. auto.
Qed.

Lemma confined_spawn t : Q t -> confined P Q X (spawn t).
Proof.
  intros Ht s. repeat split; simpl; auto.
  - exists []. rewrite app_nil_r. auto.
  - exists [t]. auto.
Qed.

Lemma confined_setExitCode code : X code -> confined P Q X (setExitCode code).
Proof.
  intros Hc s. repeat split; simpl; auto.
  - exists []. rewrite app_nil_r. auto.
  - exists []. rewrite app_nil_r. auto.
Qed.

Lemma confined_bind A B (c : M A) (k : A -> M B) :
  confined P Q X c -> (forall a, confined P Q X (k a)) -> confined P Q X (bind c k).
Proof.
  intros Hc Hk s. unfold bind. specialize (Hc s).
  destruct (c s) as [a s' | e s' | code s']; simpl in *; auto.
  eapply grows_trans; [exact Hc | apply Hk].
Qed.

Lemma confined_try_catch A (c : M A) (handler : Error -> M A) :
  confined P Q X c -> (forall e, confined P Q X (handler e)) ->
  confined P Q X (try_catch c handler).
Proof.
  intros Hc Hh s. unfold try_catch. specialize (Hc s).
  destruct (c s) as [a s' | e s' | code s']; simpl in *; auto.
  eapply grows_trans; [exact Hc | apply Hh].
Qed.

Lemma confined_forEach A (l : list A) (body : A -> M unit) :
  (forall x, confined P Q X (body x)) -> confined P Q X (forEach l body).
Proof.
  intro Hb. induction l as [| x rest IH]; simpl.
  - apply confined_ret.
  - apply confined_bind; auto.
Qed.

Lemma confined_some A (l : list A) (test : A -> M bool) :
  (forall x, confined P Q X (test x)) -> confined P Q X (some l test).
Proof.
  intro Hb. induction l as [| x rest IH]; simpl.
  - apply confined_ret.
  - apply confined_bind; auto. intros []; auto using confined_ret.
Qed.

Lemma confined_mapM A B (f : A -> M B) (l : list A) :
  (forall x, confined P Q X (f x)) -> confined P Q X (mapM f l).
Proof.
  intro Hf. induction l as [| x rest IH]; simpl.
  - apply confined_ret.
  - apply confined_bind; auto. intro y.
    apply confined_bind; auto. intro ys. apply confined_ret.
Qed.

End Confined.

Lemma grows_weaken (P P' : Event -> Prop) (Q Q' : Task -> Prop) (X X' : Z -> Prop) s s' :
  (forall e, P e -> P' e) -> (forall t, Q t -> Q' t) -> (forall z, X z -> X' z) ->
  grows P Q X s s' -> grows P' Q' X' s s'.
Proof.
  intros HP HQ HX (Hx & (evs & He & Hp) & (ts & Ht & Hq)).
  repeat split.
  - destruct Hx; auto.
  - exists evs. split; auto. eapply Forall_impl; eauto.
  - exists ts. split; auto. eapply Forall_impl; eauto.
Qed.

Lemma confined_weaken A (P P' : Event -> Prop) (Q Q' : Task -> Prop) (X X' : Z -> Prop)
  (c : M A) :
  (forall e, P e -> P' e) -> (forall t, Q t -> Q' t) -> (forall z, X z -> X' z) ->
  confined P Q X c -> confined P' Q' X' c.
Proof.
  intros HP HQ HX Hc s. eapply grows_weaken; eauto.
Qed.

(** Breaks a goal [confined P Q X c] down along the structure of [c]; the
    side conditions on events, callbacks and exit codes are left to [simpl]
    and [auto]. *)
Create HintDb confined.

Ltac confine :=
  repeat
    match goal with
    | |- confined _ _ _ (ret _) => apply confined_ret
    | |- confined _ _ _ (throw _) => apply confined_throw
    | |- confined _ _ _ (process_exit _) => apply confined_process_exit
    | |- confined _ _ _ (lift _) => apply confined_lift
    | |- confined _ _ _ (emit _) => apply confined_emit; solve [simpl; auto]
    | |- confined _ _ _ (spawn _) => apply confined_spawn; solve [simpl; auto]
    | |- confined _ _ _ (setExitCode _) => apply confined_setExitCode; solve [simpl; auto]
    | |- confined _ _ _ (bind _ _) => apply confined_bind; [| intro]
    | |- confined _ _ _ (try_catch _ _) => apply confined_try_catch; [| intro]
    | |- confined _ _ _ (forEach _ _) => apply confined_forEach; intro
    | |- confined _ _ _ (some _ _) => apply confined_some; intro
    | |- confined _ _ _ (mapM _ _) => apply confined_mapM; intro
    | |- confined _ _ _ (if ?b then _ else _) => destruct b
    | |- confined _ _ _ (match ?x with _ => _ end) => destruct x
    | |- confined _ _ _ _ => solve [auto with confined]
    end.

(** ** Facts about the functions of the script *)

Lemma Forall_never_nil A (l : list A) : Forall never l -> l = [].
Proof. destruct l; auto. intro H. inversion H. contradiction. Qed.

Lemma bind_Ok A B (c : M A) (k : A -> M B) s b s2 :
  bind c k s = Ok b s2 -> exists a s1, c s = Ok a s1 /\ k a s1 = Ok b s2.
Proof.
  unfold bind. destruct (c s) as [a s1 | |]; try discriminate. eauto.
Qed.

Lemma stateOf_bind_ret A B (c : M A) (b : B) s :
  stateOf (bind c (fun _ => ret b) s) = stateOf (c s).
Proof. unfold bind. destruct (c s); reflexivity. Qed.

Section Facts.

Variable w : World.
Variable inv : Invocation.

Ltac open_log :=
  unfold log_debug, log_info, log_error, log_fatal, program_help.

Lemma checkEditorConfig_confined filename :
  confined consoleEvent never never (checkEditorConfig w filename).
Proof. unfold checkEditorConfig. open_log. confine. Qed.

Lemma parse_confined opts program :
  confined consoleEvent never never (parse w opts program).
Proof.
  revert program. induction opts as [| o rest IH]; intro program; simpl.
  - apply confined_ret.
  - destruct o; auto. apply confined_bind; auto using checkEditorConfig_confined.
Qed.

Lemma makeSettings_confined program :
  confined consoleEvent never never (makeSettings w program).
Proof.
  unfold makeSettings. apply confined_bind; [| intro; apply confined_ret].
  destruct (truthy _); auto using confined_ret, checkEditorConfig_confined.
Qed.

Lemma RegExp_new_confined regexp : confined consoleEvent never never (RegExp_new w regexp).
Proof. unfold RegExp_new. confine. Qed.

Lemma validate_confined filePath :
  confined inputEvent inputTask never (validate inv filePath).
Proof. unfold validate. open_log. confine. Qed.

#[local] Hint Resolve validate_confined : confined.

Lemma onFile_confined excludes file :
  confined inputEvent inputTask never (onFile w inv excludes file).
Proof. unfold onFile. open_log. confine. Qed.

#[local] Hint Resolve onFile_confined : confined.

Lemma onGlob_confined excludes it :
  confined inputEvent inputTask never (onGlob w inv excludes it).
Proof. unfold onGlob. confine. Qed.

Lemma processItem_confined it :
  confined inputEvent inputTask never (processItem w inv it).
Proof. unfold processItem. open_log. confine. Qed.

#[local] Hint Resolve processItem_confined : confined.

Lemma processInput_confined v :
  confined inputEvent inputTask never (processInput w inv v).
Proof. unfold processInput. confine. Qed.

#[local] Hint Resolve processInput_confined : confined.

Lemma onReadFile_confined found :
  confined inputEvent inputTask never (onReadFile w inv found).
Proof. unfold onReadFile. open_log. confine. Qed.

(** *** The report printer *)

Lemma printed_refl s : printed false s s.
Proof. repeat split. exists []. rewrite app_nil_r. auto. Qed.

Lemma printed_trans b1 b2 s1 s2 s3 :
  printed b1 s1 s2 -> printed b2 s2 s3 -> printed (b1 || b2) s1 s3.
Proof.
  intros (Hx1 & Hp1 & e1 & He1 & Hc1) (Hx2 & Hp2 & e2 & He2 & Hc2).
  repeat split.
  - rewrite Hx2, Hx1. destruct b1, b2; reflexivity.
  - congruence.
  - exists (e1 ++ e2). rewrite He2, He1, app_assoc. split; auto.
    apply Forall_app; auto.
Qed.

Lemma forEach_printed A (l : list A) (body : A -> M unit) (f : A -> bool) :
  (forall x s, exists s', body x s = Ok tt s' /\ printed (f x) s s') ->
  forall s, exists s', forEach l body s = Ok tt s' /\ printed (existsb f l) s s'.
Proof.
  intro Hbody. induction l as [| x rest IH]; intro s; simpl.
  - exists s. split; [reflexivity | apply printed_refl].
  - destruct (Hbody x s) as (s1 & Hx & Hp1).
    destruct (IH s1) as (s2 & Hrest & Hp2).
    exists s2. unfold bind. rewrite Hx. split; [exact Hrest |].
    eapply printed_trans; eauto.
Qed.

Lemma existsb_flat_map A B (f : B -> bool) (g : A -> list B) (l : list A) :
  existsb f (flat_map g l) = existsb (fun x => existsb f (g x)) l.
Proof.
  induction l as [| x rest IH]; simpl; auto.
  rewrite existsb_app, IH. reflexivity.
Qed.

Lemma printReport_printed report s :
  exists s', printReport w report s = Ok tt s' /\
             printed (existsb (isWarning w) (entries report)) s s'.
Proof.
  unfold printReport, entries. rewrite existsb_flat_map.
  apply forEach_printed. clear s. intros [filename info] s. simpl.
  unfold bind at 1. unfold log_error at 1, emit at 1.
  rewrite existsb_flat_map.
  match goal with
  | |- context [forEach info ?body ?s0] =>
      destruct (@forEach_printed _ info body (fun key_line => existsb (isWarning w) (snd key_line))) with (s := s0)
        as (s2 & Hrun & Hp)
  end.
  - clear s. intros [key errs] s. simpl.
    apply forEach_printed. clear s. intros err s.
    unfold bind, log_error, emit, setExitCode, ret.
    destruct (isWarning w err); simpl; eexists; (split; [reflexivity |]);
      repeat split; simpl; eexists; (split; [reflexivity |]); repeat constructor.
  - exists s2. split; [exact Hrun |].
    change (existsb (fun key_line => existsb (isWarning w) (snd key_line)) info)
      with (false || existsb (fun key_line => existsb (isWarning w) (snd key_line)) info).
    eapply printed_trans; [| exact Hp].
    repeat split; simpl. eexists; split; [reflexivity |]. repeat constructor.
Qed.

Lemma printed_grows b s s' :
  printed b s s' -> grows consoleEvent never (eq 1%Z) s s'.
Proof.
  intros (Hx & Hp & evs & He & Hc). repeat split.
  - destruct b; auto.
  - eauto.
  - exists []. rewrite app_nil_r. auto.
Qed.

Lemma printReport_confined report :
  confined consoleEvent never (eq 1%Z) (printReport w report).
Proof.
  intro s. destruct (printReport_printed report s) as (s' & Hrun & Hp).
  rewrite Hrun. simpl. eapply printed_grows; eauto.
Qed.

(** *** The validation dispatcher *)

Lemma onLstat_confined settings filePath :
  confined (validating w filePath) never (eq 1%Z) (onLstat w inv settings filePath).
Proof.
  unfold onLstat. destruct (lstat w filePath) as [[|] | err] eqn:Hstat; simpl.
  - apply confined_ret.
  - unfold log_debug. confine; try (apply confined_emit; unfold validating; simpl; auto).
    eapply confined_weaken; [| | | apply printReport_confined]; unfold validating; auto.
  - apply confined_throw.
Qed.

(** What the callback has done when it returns. *)
Lemma onLstat_Ok settings filePath s s' :
  onLstat w inv settings filePath s = Ok tt s' ->
  (lstat w filePath = Return true /\ s' = s) \/
  (lstat w filePath = Return false /\
   exists report before after,
     lintspaces w settings filePath = Return report /\
     trace s' = trace s ++ before ++ Validate filePath :: after /\
     Forall consoleEvent before /\ Forall consoleEvent after /\
     pending s' = pending s /\
     exitCode s' = (if existsb (isWarning w) (entries report) then 1%Z else exitCode s)).
Proof.
  unfold onLstat. destruct (lstat w filePath) as [[|] | err]; simpl.
  - intro H. inversion H. auto.
  - intro H. right. split; auto.
    apply bind_Ok in H. destruct H as ([] & s1 & Hdebug & H).
    apply bind_Ok in H. destruct H as ([] & s2 & Hemit & H).
    apply bind_Ok in H. destruct H as (report & s3 & Hlint & H).
    destruct (lintspaces w settings filePath) as [r | e]; simpl in Hlint; [| discriminate].
    inversion Hlint; subst r s3; clear Hlint.
    destruct (printReport_printed report s2) as (s4 & Hrun & Hx & Hp & after & Ht & Hc).
    rewrite Hrun in H. inversion H; subst s4; clear H.
    inversion Hemit; subst s2; clear Hemit. simpl in *.
    exists report.
    assert (Hd : exists before, trace s1 = trace s ++ before /\ Forall consoleEvent before
                                /\ pending s1 = pending s /\ exitCode s1 = exitCode s).
    { unfold log_debug in Hdebug. destruct (VERBOSE inv).
      - inversion Hdebug. simpl. eexists; repeat split. repeat constructor.
      - inversion Hdebug. exists []. rewrite app_nil_r. auto. }
    destruct Hd as (before & Hb & Hcb & Hpb & Hxb).
    exists before, after. rewrite Ht, Hb, Hp, Hx, Hpb, Hxb.
    repeat split; auto. rewrite <- !app_assoc. reflexivity.
  - discriminate.
Qed.

(** *** The module body and the callbacks *)

Lemma dispatch_confined settings :
  confined startEvent anyTask never (dispatch w inv settings).
Proof.
  unfold dispatch. destruct (_ =? _)%nat.
  - unfold readFile_start. unfold startEvent, anyTask. confine.
    apply confined_emit. eauto.
  - eapply confined_weaken; [| | | apply processInput_confined];
      unfold startEvent, anyTask; auto.
Qed.

Lemma dispatch_confined_args settings :
  args inv <> [] -> confined inputEvent inputTask never (dispatch w inv settings).
Proof.
  intro Hargs. unfold dispatch. destruct (args inv) as [| a rest]; [contradiction |].
  simpl. apply processInput_confined.
Qed.

Lemma setup_weaken A (c : M A) (P : Event -> Prop) (Q : Task -> Prop) (X : Z -> Prop) :
  (forall e, consoleEvent e -> P e) ->
  confined consoleEvent never never c -> confined P Q X c.
Proof.
  intros HP Hc. eapply confined_weaken; [exact HP | | | exact Hc]; unfold never; contradiction.
Qed.

Lemma main_confined_dispatch (P : Event -> Prop) (Q : Task -> Prop) :
  (forall e, consoleEvent e -> P e) ->
  (forall settings, confined P Q (eq 0%Z) (dispatch w inv settings)) ->
  confined P Q (eq 0%Z) (main w inv).
Proof.
  intros HP Hd. unfold main.
  apply confined_bind; [apply setup_weaken, parse_confined; auto | intro program].
  apply confined_bind; [apply setup_weaken, makeSettings_confined; auto | intro settings].
  unfold log_debug.
  apply confined_bind; [destruct (VERBOSE inv); confine; apply confined_emit, HP; exact I |].
  intros _.
  apply confined_bind; [destruct (VERBOSE inv); confine; apply confined_emit, HP; exact I |].
  intros _.
  apply confined_bind; [apply confined_setExitCode; reflexivity | intros _].
  apply confined_bind;
    [apply setup_weaken; auto; apply confined_mapM; intro; apply RegExp_new_confined |].
  intro excludes.
  apply confined_bind; [apply Hd | intro; apply confined_ret].
Qed.

Lemma consoleEvent_inputEvent e : consoleEvent e -> inputEvent e.
Proof. destruct e; simpl; auto. Qed.

Lemma main_confined : confined startEvent anyTask (eq 0%Z) (main w inv).
Proof.
  apply main_confined_dispatch.
  - intros e He. left. apply consoleEvent_inputEvent, He.
  - intro settings. eapply confined_weaken; [| | | apply dispatch_confined]; auto.
    unfold never. contradiction.
Qed.

Lemma main_confined_args :
  args inv <> [] -> confined inputEvent inputTask (eq 0%Z) (main w inv).
Proof.
  intro Hargs. apply main_confined_dispatch.
  - apply consoleEvent_inputEvent.
  - intro settings. eapply confined_weaken; [| | | apply dispatch_confined_args]; auto.
    unfold never. contradiction.
Qed.

Lemma runTask_confined m t :
  confined (callbackEvent w) inputTask (eq 1%Z) (runTask w inv m t).
Proof.
  destruct t as [filePath | it | found]; simpl.
  - eapply confined_weaken; [| | | apply onLstat_confined]; auto.
    + intros e [He | He]; [left; apply consoleEvent_inputEvent, He | right; eauto].
    + unfold never. contradiction.
  - eapply confined_weaken; [| | | apply onGlob_confined]; auto.
    + left. assumption.
    + unfold never. contradiction.
  - eapply confined_weaken; [| | | apply onReadFile_confined]; auto.
    + left. assumption.
    + unfold never. contradiction.
Qed.

End Facts.

(** ** Facts about runs *)

Lemma traceOf_settle r : traceOf (settle r) = trace (stateOf r).
Proof. destruct r; reflexivity. Qed.

Lemma pendingOf_settle (Q : Task -> Prop) r :
  Forall Q (pending (stateOf r)) -> Forall Q (pendingOf (settle r)).
Proof. destruct r; simpl; auto. Qed.

Lemma settle_Running r m s : settle r = Running m s -> r = Ok m s.
Proof. destruct r; simpl; intro H; inversion H; reflexivity. Qed.

Lemma Forall_remove_middle A (Q : A -> Prop) (before after : list A) t :
  Forall Q (before ++ t :: after) -> Forall Q (before ++ after).
Proof.
  intro H. apply Forall_app in H. destruct H as [Hb Ha].
  apply Forall_app. split; auto. inversion Ha; auto.
Qed.

Section Runs.

Variable w : World.
Variable inv : Invocation.

(** A class of events and a class of callbacks that the module body and
    every callback stay in hold of every configuration of every run. *)
Lemma Reachable_confined (P : Event -> Prop) (Q : Task -> Prop) (X : Z -> Prop) :
  P BeforeExit ->
  confined P Q X (main w inv) ->
  (forall m t, confined P Q X (runTask w inv m t)) ->
  forall c, Reachable w inv c -> Forall P (traceOf c) /\ Forall Q (pendingOf c).
Proof.
  intros Hexit Hmain Htask c Hr. induction Hr as [| c c' Hr IH Hstep].
  - unfold boot. destruct (Hmain initial) as (_ & (evs & He & Hp) & (ts & Ht & Hq)).
    split.
    + rewrite traceOf_settle, He. exact Hp.
    + apply pendingOf_settle. rewrite Ht. exact Hq.
  - destruct IH as [IHt IHp]. inversion Hstep as [m s before t after Hpend | m s Hpend]; subst.
    + simpl in IHt, IHp. rewrite Hpend in IHp.
      apply Forall_remove_middle in IHp.
      destruct (Htask m t (without s (before ++ after)))
        as (_ & (evs & He & Hp) & (ts & Ht & Hq)).
      simpl in He, Ht. split.
      * rewrite traceOf_settle, stateOf_bind_ret, He. apply Forall_app; auto.
      * apply pendingOf_settle. rewrite stateOf_bind_ret, Ht. apply Forall_app; auto.
    + simpl in *. split; auto. apply Forall_app; auto.
Qed.

(** Induction over the configurations in which the loop is running. *)
Lemma Reachable_Running (J : Loaded -> State -> Prop) :
  (forall m s, main w inv initial = Ok m s -> J m s) ->
  (forall m s before t after s',
     J m s -> pending s = before ++ t :: after ->
     runTask w inv m t (without s (before ++ after)) = Ok tt s' -> J m s') ->
  forall m s, Reachable w inv (Running m s) -> J m s.
Proof.
  intros Hmain Htask m s Hr. remember (Running m s) as c eqn:Hc.
  revert m s Hc. induction Hr as [| c c' Hr IH Hstep]; intros m s Hc.
  - apply Hmain. apply settle_Running. exact Hc.
  - inversion Hstep as [m0 s0 before t after Hpend | m0 s0 Hpend]; subst; [| discriminate].
    match goal with H : settle _ = Running _ _ |- _ => apply settle_Running in H; rename H into Hok end.
    apply bind_Ok in Hok. destruct Hok as ([] & s1 & Hrun & Hret).
    inversion Hret; subst. eapply Htask; eauto.
Qed.

Lemma next_step m s : step w inv (Running m s) (next w inv (Running m s)).
Proof.
  simpl. destruct (pending s) as [| t rest] eqn:Hp.
  - apply step_beforeExit. exact Hp.
  - apply (@step_task w inv m s [] t rest). exact Hp.
Qed.

Lemma next_Reachable c : Reachable w inv c -> Reachable w inv (next w inv c).
Proof.
  intro Hr. destruct c; simpl; auto.
  eapply reach_step; [exact Hr | apply next_step].
Qed.

(** The oldest-first schedule is one of the runs. *)
Lemma run_Reachable fuel : forall c, Reachable w inv c -> Reachable w inv (run w inv fuel c).
Proof.
  induction fuel as [| fuel IH]; intros c Hr; simpl; auto using next_Reachable.
Qed.

End Runs.

(** ** The manifest is consulted only without arguments *)

(** C9: with at least one positional argument, no run ever starts the read
    of the manifest: no configuration has a [ReadFile] event in its trace
    or a manifest callback waiting. (So a manifest read implies an empty
    argument list.) *)
Theorem manifest_only_without_args w inv c found :
  args inv <> [] ->
  Reachable w inv c ->
  ~ In (ReadFile found) (traceOf c) /\ ~ In (TReadFile found) (pendingOf c).
Proof.
  intros Hargs Hr.
  destruct (@Reachable_confined w inv
              (fun e => match e with ReadFile _ => False | _ => True end)
              inputTask (fun _ => True)) with (c := c) as [Ht Hp]; auto.
  - eapply confined_weaken; [| | | apply main_confined_args]; auto.
    intros []; simpl; auto.
  - intros m t. eapply confined_weaken; [| | | apply runTask_confined]; auto.
    intros e [He | (p & -> & _)]; [destruct e; simpl in *; auto | exact I].
  - split; intro Hin.
    + rewrite Forall_forall in Ht. apply (Ht _ Hin).
    + rewrite Forall_forall in Hp. apply (Hp _ Hin).
Qed.

Lemma manifest_only_without_args_witness :
  args Demo.readme <> [] /\
  Reachable Demo.projectWorld Demo.readme
    (run Demo.projectWorld Demo.readme 2 (boot Demo.projectWorld Demo.readme)) /\
  ~ In (ReadFile "/work/package.json")
       (traceOf (run Demo.projectWorld Demo.readme 2 (boot Demo.projectWorld Demo.readme))) /\
  ~ In (TReadFile "/work/package.json")
       (pendingOf (run Demo.projectWorld Demo.readme 2 (boot Demo.projectWorld Demo.readme))).
Proof.
  assert (Hargs : args Demo.readme <> []) by (simpl; discriminate).
  assert (Hr : Reachable Demo.projectWorld Demo.readme
                 (run Demo.projectWorld Demo.readme 2 (boot Demo.projectWorld Demo.readme)))
    by (apply run_Reachable, reach_boot).
  split; [exact Hargs |]. split; [exact Hr |].
  exact (@manifest_only_without_args _ _ _ "/work/package.json" Hargs Hr).
Defined.

(** ** Directories are skipped *)

(** C6: for a path whose stat reports a directory, the callback of
    [lstat] returns without any effect (no output, no validator run, same
    exit code), and no run ever has the validator run on that path,
    whether the path came from an argument or from a glob. *)
Theorem directory_never_validated w inv d :
  lstat w d = Return true ->
  (forall m s, runTask w inv m (TLstat d) s = Ok tt s) /\
  (forall c, Reachable w inv c -> ~ In (Validate d) (traceOf c)).
Proof.
  intro Hdir. split.
  - intros m s. simpl. unfold onLstat. rewrite Hdir. reflexivity.
  - intros c Hr Hin.
    destruct (@Reachable_confined w inv
                (fun e => match e with Validate p => lstat w p = Return false | _ => True end)
                anyTask (fun _ => True)) with (c := c) as [Ht _]; auto.
    + eapply confined_weaken; [| | | apply main_confined]; auto.
      intros e [He | (f & ->)]; [destruct e; simpl in *; auto; contradiction | exact I].
    + intros m t. eapply confined_weaken; [| | | apply runTask_confined]; auto.
      * intros e [He | (p & -> & Hp)]; [destruct e; simpl in *; auto; contradiction | exact Hp].
      * intros; exact I.
    + rewrite Forall_forall in Ht. specialize (Ht _ Hin). simpl in Ht. congruence.
Qed.

Lemma directory_never_validated_witness :
  lstat Demo.projectWorld "src" = Return true /\
  (forall m s, runTask Demo.projectWorld Demo.sources m (TLstat "src") s = Ok tt s) /\
  (forall c, Reachable Demo.projectWorld Demo.sources c -> ~ In (Validate "src") (traceOf c)).
Proof.
  assert (Hdir : lstat Demo.projectWorld "src" = Return true) by reflexivity.
  split; [exact Hdir |].
  exact (@directory_never_validated Demo.projectWorld Demo.sources "src" Hdir).
Defined.

(** ** The exit code *)

Section ExitCode.

Variable w : World.
Variable inv : Invocation.
Variable settings : Settings.
Variable counts : LintError -> bool.

Lemma reported_app tr evs :
  reported w settings counts (tr ++ evs) <->
  reported w settings counts tr \/ reported w settings counts evs.
Proof.
  unfold reported. split.
  - intros (p & r & err & Hin & H). apply in_app_iff in Hin.
    destruct Hin; [left | right]; eauto 6.
  - intros [(p & r & err & Hin & H) | (p & r & err & Hin & H)];
      exists p, r, err; (split; [apply in_app_iff; auto | exact H]).
Qed.

Lemma reported_none (P : Event -> Prop) evs :
  (forall p, ~ P (Validate p)) -> Forall P evs -> ~ reported w settings counts evs.
Proof.
  intros HP Hall (p & r & err & Hin & _).
  rewrite Forall_forall in Hall. apply (HP p), Hall, Hin.
Qed.

Lemma reported_one filePath report :
  lintspaces w settings filePath = Return report ->
  (reported w settings counts [Validate filePath] <->
   existsb counts (entries report) = true).
Proof.
  intro Hlint. unfold reported. split.
  - intros (p & r & err & [Hin | []] & Hr & Herr & Hc).
    inversion Hin; subst p. rewrite Hlint in Hr. inversion Hr; subst r.
    apply existsb_exists. eauto.
  - intro H. apply existsb_exists in H. destruct H as (err & Herr & Hc).
    exists filePath, report, err. simpl. auto.
Qed.

End ExitCode.

(** While the loop runs, [exitCode] is 0 or 1, and it is 1 exactly when
    a printed report had an entry that [isWarning] takes for a warning. *)
Lemma exitCode_invariant w inv m s :
  Reachable w inv (Running m s) ->
  (exitCode s = 0%Z \/ exitCode s = 1%Z) /\
  (exitCode s = 1%Z <-> reported w (settings m) (isWarning w) (trace s)).
Proof.
  revert m s. apply Reachable_Running.
  - intros m s Hmain.
    destruct (main_confined w inv initial) as (Hx & (evs & He & Hp) & _).
    rewrite Hmain in Hx, He. simpl in Hx, He.
    assert (H0 : exitCode s = 0%Z) by (destruct Hx; auto).
    rewrite H0, He. split; auto. split; [discriminate |].
    intro Hrep. exfalso. revert Hrep. apply reported_none with (P := startEvent); auto.
    intros p [H | (f & H)]; [exact H | discriminate].
  - intros m s before t after s' [H01 Hiff] Hpend Hrun.
    destruct t as [filePath | it | found]; simpl in Hrun.
    + apply onLstat_Ok in Hrun.
      destruct Hrun as [[_ ->] | (_ & report & ev1 & ev2 & Hlint & Ht & Hc1 & Hc2 & _ & Hx)];
        [simpl; auto |].
      simpl in Ht, Hx. rewrite Ht, Hx.
      change (Validate filePath :: ev2) with ([Validate filePath] ++ ev2).
      rewrite !reported_app, (reported_one _ _ (isWarning w) _ Hlint).
      assert (N1 : ~ reported w (settings m) (isWarning w) ev1)
        by (apply reported_none with (P := consoleEvent); auto).
      assert (N2 : ~ reported w (settings m) (isWarning w) ev2)
        by (apply reported_none with (P := consoleEvent); auto).
      destruct (existsb (isWarning w) (entries report)).
      * split; auto. split; auto.
      * split; auto. rewrite Hiff. split; [auto | intros [H | [H | [H | H]]]];
          try contradiction; try discriminate; auto.
    + pose proof (onGlob_confined w inv (excludes m) it (without s (before ++ after))) as G.
      rewrite Hrun in G. destruct G as (Hx & (evs & He & Hp) & _). simpl in Hx, He.
      assert (Hx' : exitCode s' = exitCode s) by (destruct Hx; [auto | contradiction]).
      rewrite Hx', He, reported_app. split; auto. rewrite Hiff.
      split; [auto | intros [H | H]; auto].
      exfalso. revert H. apply reported_none with (P := inputEvent); auto.
    + pose proof (onReadFile_confined w inv found (without s (before ++ after))) as G.
      rewrite Hrun in G. destruct G as (Hx & (evs & He & Hp) & _). simpl in Hx, He.
      assert (Hx' : exitCode s' = exitCode s) by (destruct Hx; [auto | contradiction]).
      rewrite Hx', He, reported_app. split; auto. rewrite Hiff.
      split; [auto | intros [H | H]; auto].
      exfalso. revert H. apply reported_none with (P := inputEvent); auto.
Qed.

(** Under Node the marker is [undefined], and no entry is taken for a
    warning. *)
Lemma isWarning_undefined w err :
  types_WARNING w = None -> isWarning w err = false.
Proof.
  intro H. unfold isWarning. rewrite H. reflexivity.
Qed.

(** C2: with [types.WARNING] undefined, as the namespace import of the
    CommonJS constants file leaves it under Node, the [beforeExit]
    listener always ends the process with exit code 0, whatever the
    printed reports contain; a report with an entry of type ["warning"]
    does not make the exit code 1. *)
Theorem warnings_do_not_fail_the_process w inv m s code tr :
  types_WARNING w = None ->
  Reachable w inv (Running m s) ->
  pending s = [] ->
  step w inv (Running m s) (Exited code tr) ->
  code = 0%Z.
Proof.
  intros Hundefined Hr Hdrained Hstep.
  destruct (exitCode_invariant Hr) as [H01 Hiff].
  inversion Hstep as [m0 s0 before t after Hpend | m0 s0 Hpend]; subst.
  - rewrite Hdrained in Hpend. destruct before; discriminate.
  - destruct H01 as [H0 | H1]; [exact H0 |].
    apply Hiff in H1. destruct H1 as (p & r & err & _ & _ & _ & Hc).
    rewrite (isWarning_undefined _ _ Hundefined) in Hc. discriminate.
Qed.

Lemma warnings_do_not_fail_the_process_witness :
  exists m s,
    types_WARNING Demo.warningWorld = None /\
    Reachable Demo.warningWorld Demo.script (Running m s) /\
    pending s = [] /\
    step Demo.warningWorld Demo.script (Running m s) (Exited 0 (trace s ++ [BeforeExit])) /\
    0%Z = 0%Z.
Proof.
  pose proof (run_Reachable 1 (reach_boot Demo.warningWorld Demo.script)) as Hr.
  remember (run Demo.warningWorld Demo.script 1 (boot Demo.warningWorld Demo.script))
    as c eqn:E.
  vm_compute in E. subst c.
  eexists. eexists. split; [reflexivity |]. split; [exact Hr |]. split; [reflexivity |].
  match type of Hr with
  | Reachable _ _ (Running ?m ?s) =>
      pose proof (step_beforeExit Demo.warningWorld Demo.script m s eq_refl) as Hs
  end.
  split; [exact Hs |].
  refine (warnings_do_not_fail_the_process _ Hr eq_refl Hs). reflexivity.
Defined.

(** The run of [editorconfig-cli a.js] where the validator reports one
    entry of type ["warning"] for [a.js]: the entry is printed, in green,
    and the process exits with code 0. *)
Example warning_entry_exits_zero :
  let c := run Demo.warningWorld Demo.script 2 (boot Demo.warningWorld Demo.script) in
  exitStatus c = Some 0%Z /\
  reported Demo.warningWorld Demo.someSettings isWarningOrError (traceOf c) /\
  In (ConsoleWarn ("Line: 1 Unexpected trailing spaces found. ["
                   ++ green Demo.warningWorld "warning" ++ "]")%string) (traceOf c).
Proof.
  vm_compute. split; [reflexivity |]. split.
  - exists "/work/a.js". eexists. eexists. split; [do 2 right; left; reflexivity |].
    split; [reflexivity |]. split; [left; reflexivity | reflexivity].
  - do 4 right. left. reflexivity.
Qed.

(** ** The editorconfig file *)

Section Editorconfig.

Variable w : World.
Variable inv : Invocation.

Lemma checkEditorConfig_missing filename s :
  truthy (resolve w filename) = false ->
  checkEditorConfig w filename s
  = Exit 1 {| exitCode := exitCode s; pending := pending s;
              trace := trace s ++ [fatalMessage w filename] |}.
Proof.
  intro H. unfold checkEditorConfig. rewrite H. reflexivity.
Qed.

Lemma checkEditorConfig_found filename s :
  truthy (resolve w filename) = true ->
  exists s', checkEditorConfig w filename s = Ok (Some filename) s'.
Proof.
  intro H. unfold checkEditorConfig. rewrite H. simpl. eexists. reflexivity.
Qed.

Lemma parse_without_flag opts : forall program s,
  hasEditorconfigFlag opts = false ->
  exists program',
    parse w opts program s = Ok program' s /\
    Commander.editorconfig program' = Commander.editorconfig program.
Proof.
  induction opts as [| o rest IH]; intros program s Hflag; simpl.
  - eauto.
  - destruct o; simpl in Hflag; try discriminate;
      match goal with |- context [parse w rest ?p s] => destruct (IH p s Hflag) as (p' & -> & Hp) end;
      eauto.
Qed.

Lemma parse_missing_flag file opts : forall program s,
  In (OptEditorconfig file) opts ->
  truthy (resolve w file) = false ->
  exists s', parse w opts program s = Exit 1 s'.
Proof.
  induction opts as [| o rest IH]; intros program s Hin Hmissing; [contradiction |].
  destruct Hin as [-> | Hin].
  - simpl. unfold bind. rewrite checkEditorConfig_missing; eauto.
  - destruct o; simpl; eauto. unfold bind.
    destruct (truthy (resolve w file0)) eqn:Hfile.
    + destruct (checkEditorConfig_found file0 s Hfile) as (s' & ->). eauto.
    + rewrite checkEditorConfig_missing; eauto.
Qed.

(** Once the module body has ended the process, nothing else happens. *)
Lemma Reachable_after_exit c :
  Reachable w inv c ->
  (forall m s, boot w inv <> Running m s) ->
  c = boot w inv.
Proof.
  intros Hr Hboot. induction Hr as [| c c' Hr IH Hstep]; auto.
  subst c. inversion Hstep as [m s before t after Hp Hc | m s Hp Hc];
    symmetry in Hc; apply Hboot in Hc; contradiction.
Qed.

End Editorconfig.

(** C3 (amended): without the [--editorconfig] flag and without a
    [.editorconfig] in the working directory, [checkEditorConfig] calls
    [log.fatal]: the process prints that message and ends with exit code 1
    before any settings exist; nothing else happens in any run. *)
Theorem default_editorconfig_absence_is_fatal w inv :
  hasEditorconfigFlag (options inv) = false ->
  existsSync w (pathResolve w DEFAULT_EDITORCONFIG_NAME) = false ->
  boot w inv = Exited 1 [fatalMessage w DEFAULT_EDITORCONFIG_NAME] /\
  (forall c, Reachable w inv c -> c = Exited 1 [fatalMessage w DEFAULT_EDITORCONFIG_NAME]).
Proof.
  intros Hflag Hmissing.
  assert (Hboot : boot w inv = Exited 1 [fatalMessage w DEFAULT_EDITORCONFIG_NAME]).
  { unfold boot, main.
    destruct (parse_without_flag w (options inv) Commander.defaults initial Hflag)
      as (program & Hparse & Hec).
    unfold bind at 1. rewrite Hparse.
    unfold bind at 1. unfold makeSettings. unfold bind at 1.
    rewrite Hec.
    change (truthy (Commander.editorconfig Commander.defaults)) with false. cbv iota.
    rewrite checkEditorConfig_missing; [reflexivity |].
    unfold resolve. rewrite Hmissing. reflexivity. }
  split; [exact Hboot |].
  intros c Hr. rewrite <- Hboot. apply Reachable_after_exit; auto.
  intros m s. rewrite Hboot. discriminate.
Qed.

Lemma default_editorconfig_absence_is_fatal_witness :
  hasEditorconfigFlag (options Demo.readme) = false /\
  existsSync Demo.bareWorld (pathResolve Demo.bareWorld DEFAULT_EDITORCONFIG_NAME) = false /\
  boot Demo.bareWorld Demo.readme
  = Exited 1 [fatalMessage Demo.bareWorld DEFAULT_EDITORCONFIG_NAME] /\
  (forall c, Reachable Demo.bareWorld Demo.readme c ->
             c = Exited 1 [fatalMessage Demo.bareWorld DEFAULT_EDITORCONFIG_NAME]).
Proof.
  split; [reflexivity |]. split; [reflexivity |].
  exact (@default_editorconfig_absence_is_fatal Demo.bareWorld Demo.readme eq_refl eq_refl).
Defined.

(** C3 (as written): in a project without [.editorconfig] the module body
    does not get as far as a settings record. *)
Lemma default_absence_counterexample :
  ~ defaultAbsenceNonFatal Demo.bareWorld Demo.readme.
Proof.
  intro H. destruct (H eq_refl eq_refl) as (m & s & Hboot & _).
  vm_compute in Hboot. discriminate Hboot.
Qed.

(** C4: when [--editorconfig] names a file that does not exist, the
    module body ends the process with exit code 1 while commander is still
    parsing; all it has done is console output, and no run has any other
    configuration: no stat, no glob, no manifest read, no validator run. *)
Theorem missing_editorconfig_is_fatal w inv file :
  In (OptEditorconfig file) (options inv) ->
  existsSync w (pathResolve w file) = false ->
  exists tr,
    boot w inv = Exited 1 tr /\
    Forall consoleEvent tr /\
    (forall c, Reachable w inv c -> c = Exited 1 tr).
Proof.
  intros Hin Hmissing.
  assert (Hfalsy : truthy (resolve w file) = false)
    by (unfold resolve; rewrite Hmissing; reflexivity).
  destruct (parse_missing_flag w file (options inv) Commander.defaults initial Hin Hfalsy)
    as (s' & Hparse).
  assert (Hboot : boot w inv = Exited 1 (trace s')).
  { unfold boot, main. unfold bind at 1. rewrite Hparse. reflexivity. }
  exists (trace s'). split; [exact Hboot |]. split.
  - destruct (parse_confined w (options inv) Commander.defaults initial)
      as (_ & (evs & He & Hc) & _).
    rewrite Hparse in He. simpl in He. rewrite He. exact Hc.
  - intros c Hr. rewrite <- Hboot. apply Reachable_after_exit; auto.
    intros m s. rewrite Hboot. discriminate.
Qed.

Lemma missing_editorconfig_is_fatal_witness :
  In (OptEditorconfig "missing.cfg") (options Demo.missingConfig) /\
  existsSync Demo.projectWorld (pathResolve Demo.projectWorld "missing.cfg") = false /\
  exists tr,
    boot Demo.projectWorld Demo.missingConfig = Exited 1 tr /\
    Forall consoleEvent tr /\
    (forall c, Reachable Demo.projectWorld Demo.missingConfig c -> c = Exited 1 tr).
Proof.
  assert (Hin : In (OptEditorconfig "missing.cfg") (options Demo.missingConfig))
    by (simpl; auto).
  split; [exact Hin |]. split; [reflexivity |].
  exact (@missing_editorconfig_is_fatal Demo.projectWorld Demo.missingConfig "missing.cfg"
           Hin eq_refl).
Defined.

(** ** The exclusion patterns *)

Section Excludes.

Variable w : World.
Variable inv : Invocation.

Lemma parse_exclude opts : forall program s program' s',
  parse w opts program s = Ok program' s' ->
  Commander.exclude program' = Commander.exclude program ++ userExcludes opts.
Proof.
  induction opts as [| o rest IH]; intros program s program' s' H; simpl in H.
  - inversion H. simpl. rewrite app_nil_r. reflexivity.
  - destruct o; simpl.
    + apply bind_Ok in H. destruct H as (v & s1 & _ & H).
      apply IH in H. exact H.
    + apply IH in H. exact H.
    + apply IH in H. exact H.
    + apply IH in H. simpl in H. unfold collect in H. rewrite <- app_assoc in H. exact H.
    + apply IH in H. exact H.
Qed.

Lemma mapM_RegExp_new l : forall s rs s',
  mapM (RegExp_new w) l s = Ok rs s' ->
  rs = map (fun regexp => {| source := regexp |}) l.
Proof.
  induction l as [| regexp rest IH]; intros s rs s' H; simpl in H.
  - inversion H. reflexivity.
  - apply bind_Ok in H. destruct H as (r & s1 & Hr & H).
    apply bind_Ok in H. destruct H as (rs0 & s2 & Hrest & H).
    inversion H; subst. apply IH in Hrest. subst rs0.
    unfold RegExp_new in Hr. destruct (regexp_error w regexp); [discriminate |].
    inversion Hr. reflexivity.
Qed.

Lemma grows_of_Ok A (P : Event -> Prop) (Q : Task -> Prop) (X : Z -> Prop)
  (c : M A) s a s' :
  confined P Q X c -> c s = Ok a s' -> grows P Q X s s'.
Proof. intros Hc H. specialize (Hc s). rewrite H in Hc. exact Hc. Qed.

(** The module body, taken apart. *)
Lemma main_Ok m s :
  main w inv initial = Ok m s ->
  exists program s1 s2 s3,
    parse w (options inv) Commander.defaults initial = Ok program s1 /\
    makeSettings w program s1 = Ok (settings m) s2 /\
    excludes m = map (fun regexp => {| source := regexp |}) (exclude (settings m)) /\
    Forall consoleEvent (trace s3) /\
    pending s3 = [] /\
    exitCode s3 = 0%Z /\
    dispatch w inv (settings m) s3 = Ok tt s.
Proof.
  intro H. unfold main in H.
  apply bind_Ok in H. destruct H as (program & s1 & Hparse & H).
  apply bind_Ok in H. destruct H as (st & s2 & Hsettings & H).
  apply bind_Ok in H. destruct H as ([] & s2a & Hd1 & H).
  apply bind_Ok in H. destruct H as ([] & s2b & Hd2 & H).
  apply bind_Ok in H. destruct H as ([] & s2c & Hset & H).
  apply bind_Ok in H. destruct H as (rs & s3 & Hmap & H).
  apply bind_Ok in H. destruct H as ([] & s4 & Hdispatch & H).
  inversion H; subst m s4; clear H. simpl.
  exists program, s1, s2, s3.
  assert (G : grows consoleEvent never (eq 0%Z) initial s3).
  { eapply grows_trans;
      [eapply grows_of_Ok; [| exact Hparse]; apply setup_weaken, parse_confined; auto |].
    eapply grows_trans;
      [eapply grows_of_Ok; [| exact Hsettings]; apply setup_weaken, makeSettings_confined; auto |].
    eapply grows_trans;
      [eapply grows_of_Ok; [| exact Hd1]; unfold log_debug; confine |].
    eapply grows_trans;
      [eapply grows_of_Ok; [| exact Hd2]; unfold log_debug; confine |].
    eapply grows_trans;
      [eapply grows_of_Ok; [| exact Hset]; confine |].
    eapply grows_of_Ok; [| exact Hmap].
    apply setup_weaken; auto. apply confined_mapM. intro. apply RegExp_new_confined. }
  destruct G as (Hx & (evs & He & Hc) & (ts & Ht & Hq)). simpl in *.
  apply Forall_never_nil in Hq. subst ts.
  repeat split; auto.
  - eapply mapM_RegExp_new; eauto.
  - rewrite He. exact Hc.
  - destruct Hx; auto.
Qed.

Lemma makeSettings_exclude program s st s' :
  makeSettings w program s = Ok st s' -> exclude st = Commander.exclude program.
Proof.
  unfold makeSettings. intro H. apply bind_Ok in H. destruct H as (ec & s1 & _ & H).
  inversion H. reflexivity.
Qed.

End Excludes.

(** C10: in every run that gets to load the module, at every point, the
    configured exclude list is the built-in ['/normalize.*'] followed by
    the patterns given with [-x] in order, so it is never empty, and the
    compiled rule set has one matcher per pattern, the built-in one
    included. *)
Theorem default_exclude_kept w inv m s :
  Reachable w inv (Running m s) ->
  exclude (settings m) = "/normalize.*" :: userExcludes (options inv) /\
  exclude (settings m) <> [] /\
  excludes m = map (fun regexp => {| source := regexp |}) (exclude (settings m)) /\
  In {| source := "/normalize.*" |} (excludes m).
Proof.
  revert m s. apply Reachable_Running with
    (J := fun m _ =>
       exclude (settings m) = "/normalize.*" :: userExcludes (options inv) /\
       exclude (settings m) <> [] /\
       excludes m = map (fun regexp => {| source := regexp |}) (exclude (settings m)) /\
       In {| source := "/normalize.*" |} (excludes m)); [| auto].
  intros m s Hmain.
  destruct (main_Ok w inv Hmain) as (program & s1 & s2 & s3 & Hparse & Hsettings & Hex & _).
  apply makeSettings_exclude in Hsettings. apply parse_exclude in Hparse.
  simpl in Hparse. rewrite Hparse in Hsettings.
  rewrite Hex, Hsettings. repeat split; simpl; auto. discriminate.
Qed.

Lemma default_exclude_kept_witness :
  exists m s,
    Reachable Demo.projectWorld Demo.moreExcludes (Running m s) /\
    exclude (settings m) = "/normalize.*" :: userExcludes (options Demo.moreExcludes) /\
    exclude (settings m) <> [] /\
    excludes m = map (fun regexp => {| source := regexp |}) (exclude (settings m)) /\
    In {| source := "/normalize.*" |} (excludes m).
Proof.
  pose proof (reach_boot Demo.projectWorld Demo.moreExcludes) as Hr.
  remember (boot Demo.projectWorld Demo.moreExcludes) as c eqn:E.
  vm_compute in E. subst c.
  eexists. eexists. split; [exact Hr |].
  exact (default_exclude_kept Hr).
Defined.

(** ** The input expander *)

Section Expander.

Variable w : World.
Variable inv : Invocation.

Lemma processItem_string it s :
  processItem w inv (JString it) s
  = Ok tt {| exitCode := exitCode s;
             pending := pending s ++ tasksFor w it;
             trace := trace s ++ eventsFor w inv it |}.
Proof.
  unfold processItem, tasksFor, eventsFor, validate, log_debug, debugLine.
  destruct (truthy (resolve w it)); destruct (VERBOSE inv);
    unfold bind, emit, spawn, ret; simpl; rewrite <- ?app_assoc; reflexivity.
Qed.

Lemma forEach_processItem l : forall s,
  forEach (map JString l) (processItem w inv) s
  = Ok tt {| exitCode := exitCode s;
             pending := pending s ++ flat_map (tasksFor w) l;
             trace := trace s ++ flat_map (eventsFor w inv) l |}.
Proof.
  induction l as [| it rest IH]; intro s; cbn [map forEach flat_map].
  - rewrite !app_nil_r. destruct s; reflexivity.
  - unfold bind. rewrite processItem_string, IH. cbn [exitCode pending trace].
    rewrite <- !app_assoc. reflexivity.
Qed.

Lemma filter_debugLine f message :
  (forall m, f (ConsoleLog m) = false) -> filter f (debugLine inv message) = [].
Proof.
  intro Hf. unfold debugLine. destruct (VERBOSE inv); simpl; auto. rewrite Hf. reflexivity.
Qed.

Lemma Glob_in_eventsFor it it' :
  In (Glob it) (eventsFor w inv it') -> it' = it /\ truthy (resolve w it) = false.
Proof.
  unfold eventsFor, debugLine. destruct (truthy (resolve w it')) eqn:Hr;
    destruct (VERBOSE inv); simpl; intuition (try discriminate);
    match goal with H : Glob _ = Glob _ |- _ => inversion H; subst end; auto.
Qed.

Lemma dispatch_args settings s :
  args inv <> [] ->
  dispatch w inv settings s = forEach (map JString (args inv)) (processItem w inv) s.
Proof.
  intro Hargs. unfold dispatch. destruct (args inv) as [| a rest]; [contradiction |].
  reflexivity.
Qed.

End Expander.

(** C5: with positional arguments, the last statement of the module
    handles them one by one and returns. An argument that resolves to an
    existing path is handed to [validate] directly, with the resolved
    path: it contributes exactly one stat request and one stat callback,
    and no call of the glob engine; no glob is started for it anywhere in
    the loop. An argument that does not resolve contributes exactly one
    call of the glob engine on the argument itself, and no stat. *)
Theorem positional_arguments_dispatch w inv settings s :
  args inv <> [] ->
  exists s',
    dispatch w inv settings s = Ok tt s' /\
    exitCode s' = exitCode s /\
    trace s' = trace s ++ flat_map (eventsFor w inv) (args inv) /\
    pending s' = pending s ++ flat_map (tasksFor w) (args inv) /\
    (forall it, truthy (resolve w it) = true ->
       tasksFor w it = [TLstat (str (resolve w it))] /\
       filter isLstat (eventsFor w inv it) = [Lstat (str (resolve w it))] /\
       filter isGlob (eventsFor w inv it) = [] /\
       ~ In (Glob it) (flat_map (eventsFor w inv) (args inv))) /\
    (forall it, truthy (resolve w it) = false ->
       tasksFor w it = [TGlob it] /\
       filter isGlob (eventsFor w inv it) = [Glob it] /\
       filter isLstat (eventsFor w inv it) = []).
Proof.
  intro Hargs. eexists. split; [| split; [| split; [| split; [| split]]]].
  - rewrite dispatch_args by exact Hargs. apply forEach_processItem.
  - reflexivity.
  - reflexivity.
  - reflexivity.
  - intros it Hit. unfold tasksFor, eventsFor. rewrite Hit.
    rewrite !filter_app, !filter_debugLine by reflexivity. simpl.
    repeat split; auto.
    intro Hin. apply in_flat_map in Hin. destruct Hin as (it' & _ & Hin).
    apply Glob_in_eventsFor in Hin. destruct Hin as [_ Hfalse]. congruence.
  - intros it Hit. unfold tasksFor, eventsFor. rewrite Hit.
    rewrite !filter_app, !filter_debugLine by reflexivity. simpl. auto.
Qed.

Lemma positional_arguments_dispatch_witness :
  args Demo.mixed <> [] /\
  exists s',
    dispatch Demo.projectWorld Demo.mixed Demo.someSettings initial = Ok tt s' /\
    trace s' = [Lstat "/work/README.md"; Glob "src/**"; Lstat "/work/README.md"] /\
    pending s' = [TLstat "/work/README.md"; TGlob "src/**"; TLstat "/work/README.md"].
Proof.
  assert (Hargs : args Demo.mixed <> []) by (simpl; discriminate).
  split; [exact Hargs |].
  destruct (@positional_arguments_dispatch Demo.projectWorld Demo.mixed Demo.someSettings
              initial Hargs)
    as (s' & Hrun & _ & Ht & Hp & _).
  exists s'. split; [exact Hrun |]. split; [exact Ht | exact Hp].
Defined.

(** ** The manifest *)

Section Manifest.

Variable w : World.
Variable inv : Invocation.

Lemma onReadFile_nothing found data parsed patterns s :
  readFile w found = Return data ->
  JSON_parse w data = Return parsed ->
  getProperty parsed JSON_CONFIG_PROPERTY_NAME = Return patterns ->
  patterns = None \/ patterns = Some (JArray []) ->
  onReadFile w inv found s
  = Exit 0 {| exitCode := exitCode s;
              pending := pending s;
              trace := trace s ++ nothingToDo inv found |}.
Proof.
  intros Hread Hparse Hprop Hpat.
  unfold onReadFile, nothingToDo, log_debug, log_info, program_help, debugLine,
    try_catch, bind, emit, process_exit.
  rewrite Hread. cbn [lift ret]. rewrite Hparse. cbn [lift ret]. rewrite Hprop.
  destruct Hpat as [-> | ->]; destruct (VERBOSE inv);
    cbn [lift ret truthyJSON negb orb exitCode pending trace];
    try change (lengthIsZero (Some (JArray []))) with true;
    cbn [lift ret truthyJSON negb orb exitCode pending trace];
    rewrite <- ?app_assoc; reflexivity.
Qed.

(** A failed read, or a text that is not JSON, is caught and logged. *)
Lemma onReadFile_failure found s e :
  readFile w found = Raise e \/
  (exists data, readFile w found = Return data /\ JSON_parse w data = Raise e) ->
  onReadFile w inv found s
  = Ok tt {| exitCode := exitCode s;
             pending := pending s;
             trace := trace s
                      ++ debugLine inv ("Reading GLOBs from file: '" ++ found ++ "...")%string
                      ++ [ConsoleWarn (red w ("Failed to read JSON file: " ++ e)%string)] |}.
Proof.
  intros [Hread | (data & Hread & Hparse)];
    unfold onReadFile, log_debug, log_error, debugLine, try_catch, bind, emit;
    rewrite Hread; cbn [lift ret throw]; try rewrite Hparse;
    destruct (VERBOSE inv); cbn [lift ret throw exitCode pending trace];
    rewrite <- ?app_assoc; reflexivity.
Qed.

(** With no argument, a module that loads has started the read of the
    manifest, and nothing else. *)
Lemma boot_without_args m s :
  args inv = [] ->
  boot w inv = Running m s ->
  existsSync w (pathResolve w (json (settings m))) = true /\
  pending s = [TReadFile (pathResolve w (json (settings m)))] /\
  exitCode s = 0%Z /\
  Forall (fun e => consoleEvent e \/ e = ReadFile (pathResolve w (json (settings m))))
         (trace s).
Proof.
  intros Hargs Hboot. apply settle_Running in Hboot.
  destruct (main_Ok w inv Hboot) as (program & s1 & s2 & s3 & _ & _ & _ & Hc & Hp & Hx & Hd).
  unfold dispatch in Hd. rewrite Hargs in Hd. simpl in Hd.
  unfold resolve in Hd. destruct (existsSync w (pathResolve w (json (settings m)))).
  - simpl in Hd. inversion Hd; subst s; clear Hd. simpl. rewrite Hp.
    repeat split; auto. apply Forall_app. split.
    + eapply Forall_impl; [| exact Hc]. auto.
    + constructor; auto.
  - discriminate Hd.
Qed.

Lemma singleton_middle A (before after : list A) t x :
  [x] = before ++ t :: after -> before = [] /\ after = [] /\ t = x.
Proof.
  destruct before as [| b before]; simpl; intro H; inversion H; auto.
  destruct before; discriminate.
Qed.

End Manifest.

(** C8: with no positional argument, a manifest that can be read and
    parsed, and whose ["editorconfig-cli"] property is absent or an empty
    array: the only thing the loop can do is run the callback of the read,
    which prints "Nothing to do =(", shows the usage and ends the process
    with exit code 0. In every run, nothing was stat'ed, globbed or
    validated. *)
Theorem empty_manifest_nothing_to_do w inv m s data parsed patterns :
  args inv = [] ->
  boot w inv = Running m s ->
  readFile w (pathResolve w (json (settings m))) = Return data ->
  JSON_parse w data = Return parsed ->
  getProperty parsed JSON_CONFIG_PROPERTY_NAME = Return patterns ->
  patterns = None \/ patterns = Some (JArray []) ->
  exists tr,
    (forall c, step w inv (Running m s) c <-> c = Exited 0 tr) /\
    (forall c, Reachable w inv c -> c = Running m s \/ c = Exited 0 tr) /\
    In (ConsoleLog "Nothing to do =(") tr /\
    In Help tr /\
    Forall (fun e => consoleEvent e \/ e = Help \/ exists found, e = ReadFile found) tr.
Proof.
  intros Hargs Hboot Hread Hparse Hprop Hpat.
  destruct (boot_without_args w inv Hargs Hboot) as (_ & Hp & _ & Hc).
  set (found := pathResolve w (json (settings m))) in *.
  exists (trace s ++ nothingToDo inv found).
  assert (Hstep : forall c, step w inv (Running m s) c <->
                            c = Exited 0 (trace s ++ nothingToDo inv found)).
  { intro c. split.
    - intro Hs. inversion Hs as [m0 s0 before t after Hpend | m0 s0 Hpend]; subst.
      + rewrite Hp in Hpend. apply singleton_middle in Hpend.
        destruct Hpend as (-> & -> & ->). simpl.
        unfold bind. rewrite (onReadFile_nothing w inv _ _ Hread Hparse Hprop Hpat).
        reflexivity.
      + rewrite Hp in Hpend. discriminate.
    - intros ->.
      pose proof (@step_task w inv m s [] (TReadFile found) [] Hp) as Hs.
      simpl in Hs. unfold bind in Hs.
      rewrite (onReadFile_nothing w inv _ _ Hread Hparse Hprop Hpat) in Hs.
      exact Hs. }
  split; [exact Hstep |]. split; [| split; [| split]].
  - intros c Hr. induction Hr as [| c c' Hr IH Hs].
    + left. exact Hboot.
    + destruct IH as [-> | ->].
      * right. apply Hstep. exact Hs.
      * inversion Hs.
  - apply in_app_iff. right. unfold nothingToDo. apply in_app_iff. right. simpl. auto.
  - apply in_app_iff. right. unfold nothingToDo. apply in_app_iff. right. simpl. auto.
  - apply Forall_app. split.
    + eapply Forall_impl; [| exact Hc]. intros e [He | ->]; eauto.
    + unfold nothingToDo, debugLine.
      destruct (VERBOSE inv); cbn [app];
        repeat match goal with |- Forall _ _ => constructor end; simpl; auto.
Qed.

Lemma empty_manifest_nothing_to_do_witness :
  exists m s,
    args Demo.noArguments = [] /\
    boot Demo.emptyManifestWorld Demo.noArguments = Running m s /\
    readFile Demo.emptyManifestWorld
      (pathResolve Demo.emptyManifestWorld (json (settings m))) = Return "manifest" /\
    JSON_parse Demo.emptyManifestWorld "manifest"
    = Return (JObject [("editorconfig-cli", JArray [])]) /\
    getProperty (JObject [("editorconfig-cli", JArray [])]) JSON_CONFIG_PROPERTY_NAME
    = Return (Some (JArray [])) /\
    (Some (JArray []) = None \/ Some (JArray []) = Some (JArray [])) /\
    exists tr,
      (forall c, step Demo.emptyManifestWorld Demo.noArguments (Running m s) c
                 <-> c = Exited 0 tr) /\
      (forall c, Reachable Demo.emptyManifestWorld Demo.noArguments c ->
                 c = Running m s \/ c = Exited 0 tr) /\
      In (ConsoleLog "Nothing to do =(") tr /\
      In Help tr /\
      Forall (fun e => consoleEvent e \/ e = Help \/ exists found, e = ReadFile found) tr.
Proof.
  eexists. eexists.
  split; [reflexivity |].
  split; [reflexivity |].
  split; [reflexivity |].
  split; [reflexivity |].
  split; [reflexivity |].
  split; [right; reflexivity |].
  exact (@empty_manifest_nothing_to_do Demo.emptyManifestWorld Demo.noArguments _ _
           "manifest" (JObject [("editorconfig-cli", JArray [])]) (Some (JArray []))
           eq_refl eq_refl eq_refl eq_refl eq_refl (or_intror eq_refl)).
Defined.

(** ** The exclusion filter *)

Section Filter.

Variable w : World.
Variable inv : Invocation.

(** The loop of [onFile] is a logical OR over the patterns; it only
    prints. *)
Lemma some_excludes excludes file : forall s,
  exists s',
    some excludes (fun exclude =>
      log_debug inv ("Testing file '" ++ file ++ "' on '"
                     ++ regexp_toString w exclude ++ "'")%string ;;
      (if regexp_test w exclude file
       then log_info ("File: " ++ file ++ " [" ++ green w "excluded" ++ "]")%string
       else ret tt) ;;
      ret (regexp_test w exclude file)) s
    = Ok (existsb (fun exclude => regexp_test w exclude file) excludes) s' /\
    printed false s s'.
Proof.
  induction excludes as [| exclude rest IH]; intro s; cbn [some existsb].
  - exists s. split; [reflexivity | apply printed_refl].
  - unfold bind at 1.
    assert (Htest : exists s1,
      (log_debug inv ("Testing file '" ++ file ++ "' on '"
                      ++ regexp_toString w exclude ++ "'")%string ;;
       (if regexp_test w exclude file
        then log_info ("File: " ++ file ++ " [" ++ green w "excluded" ++ "]")%string
        else ret tt) ;;
       ret (regexp_test w exclude file)) s
      = Ok (regexp_test w exclude file) s1 /\ printed false s s1).
    { unfold log_debug, log_info, bind, emit, ret.
      destruct (VERBOSE inv); destruct (regexp_test w exclude file);
        eexists; (split; [reflexivity |]); repeat split; cbn [trace];
        eexists;
        (split; [first [rewrite <- ?app_assoc; reflexivity | symmetry; apply app_nil_r] |]);
        cbn [app]; repeat constructor. }
    destruct Htest as (s1 & -> & Hp1).
    destruct (regexp_test w exclude file); cbn [orb].
    + exists s1. split; [reflexivity | exact Hp1].
    + destruct (IH s1) as (s2 & -> & Hp2). exists s2. split; [reflexivity |].
      change false with (false || false). eapply printed_trans; eauto.
Qed.

(** A glob result that some pattern matches is logged and dropped. *)
Lemma onFile_excluded excludes file s :
  existsb (fun exclude => regexp_test w exclude file) excludes = true ->
  exists s', onFile w inv excludes file s = Ok tt s' /\ printed false s s'.
Proof.
  intro Hmatch. unfold onFile.
  destruct (some_excludes excludes file s) as (s' & Hsome & Hp).
  unfold bind at 1. rewrite Hsome, Hmatch. exists s'. split; [reflexivity | exact Hp].
Qed.

(** One that no pattern matches goes to [validate]. *)
Lemma onFile_kept excludes file s :
  existsb (fun exclude => regexp_test w exclude file) excludes = false ->
  exists s1, printed false s s1 /\
             onFile w inv excludes file s = validate inv file s1.
Proof.
  intro Hmatch. unfold onFile.
  destruct (some_excludes excludes file s) as (s' & Hsome & Hp).
  unfold bind at 1. rewrite Hsome, Hmatch. exists s'. split; [exact Hp | reflexivity].
Qed.

End Filter.

(** C1 (the code at the failing input): [lib/normalize.css] is named on
    the command line and exists. The built-in pattern is in the rule set
    and matches the argument and its resolved path, yet the module body
    asks for the stat of the resolved path, and the validator runs on it
    before the process exits. *)
Theorem excluded_literal_path_is_validated :
  exists m s,
    boot Demo.vendoredWorld Demo.stylesheet = Running m s /\
    existsb (fun exclude => regexp_test Demo.vendoredWorld exclude "lib/normalize.css")
            (excludes m) = true /\
    existsb (fun exclude => regexp_test Demo.vendoredWorld exclude "/work/lib/normalize.css")
            (excludes m) = true /\
    In (Lstat "/work/lib/normalize.css") (trace s) /\
    pending s = [TLstat "/work/lib/normalize.css"] /\
    In (Validate "/work/lib/normalize.css")
       (traceOf (run Demo.vendoredWorld Demo.stylesheet 1 (Running m s))) /\
    exitStatus (run Demo.vendoredWorld Demo.stylesheet 2 (Running m s)) = Some 0%Z.
Proof.
  eexists. eexists. split; [reflexivity |].
  split; [reflexivity |]. split; [reflexivity |].
  split; [vm_compute; auto |]. split; [reflexivity |].
  split; [vm_compute; auto | reflexivity].
Qed.

(** The same file found by a glob is filtered out: no stat is asked for. *)
Example excluded_glob_result_is_dropped :
  run Demo.vendoredWorld (Demo.node [] ["lib/*.css"]) 2
      (boot Demo.vendoredWorld (Demo.node [] ["lib/*.css"]))
  = Exited 0
      [ConsoleLog ("Using '.editorconfig' from: " ++ dquote ++ "/work/.editorconfig" ++ dquote);
       Glob "lib/*.css";
       ConsoleLog ("File: lib/normalize.css [" ++ green Demo.vendoredWorld "excluded" ++ "]");
       BeforeExit]%string.
Proof. reflexivity. Qed.

(** C7 (the code at the failing input): no argument and no
    [package.json]. [resolve] returns [null], [readFile(null, ...)] throws
    outside of the [try] of the callback, and the process dies of the
    uncaught [TypeError] with status 1; nothing is logged with
    [log.error]. *)
Theorem missing_manifest_crashes :
  args Demo.noArguments = [] /\
  resolve Demo.projectWorld DEFAULT_JSON_FILENAME = None /\
  boot Demo.projectWorld Demo.noArguments
  = Crashed ERR_INVALID_ARG_TYPE
      [ConsoleLog ("Using '.editorconfig' from: " ++ dquote ++ "/work/.editorconfig"
                   ++ dquote)%string] /\
  exitStatus (boot Demo.projectWorld Demo.noArguments) = Some 1%Z /\
  (forall c, Reachable Demo.projectWorld Demo.noArguments c ->
             c = boot Demo.projectWorld Demo.noArguments).
Proof.
  split; [reflexivity |]. split; [reflexivity |].
  split; [reflexivity |]. split; [reflexivity |].
  intros c Hr. apply Reachable_after_exit; auto.
  intros m s H. vm_compute in H. discriminate H.
Qed.

(** ** How computations end *)

Section Ends.

Variables (E : Error -> Prop) (C : Z -> Prop).

Lemma ends_ret A (a : A) : ends E C (ret a).
Proof. intro s. exact I. Qed.

Lemma ends_throw A e : E e -> ends E C (@throw A e).
Proof. intros He s. exact He. Qed.

Lemma ends_process_exit A code : C code -> ends E C (@process_exit A code).
Proof. intros Hc s. exact Hc. Qed.

Lemma ends_emit e : ends E C (emit e).
Proof. intro s. exact I. Qed.

Lemma ends_spawn t : ends E C (spawn t).
Proof. intro s. exact I. Qed.

Lemma ends_setExitCode code : ends E C (setExitCode code).
Proof. intro s. exact I. Qed.

Lemma ends_lift A (c : Completion A) :
  (forall e, c = Raise e -> E e) -> ends E C (lift c).
Proof. intros H s. destruct c; simpl; auto. Qed.

Lemma ends_bind A B (c : M A) (k : A -> M B) :
  ends E C c -> (forall a, ends E C (k a)) -> ends E C (bind c k).
Proof.
  intros Hc Hk s. unfold bind. specialize (Hc s).
  destruct (c s) as [a s1 | |]; auto. apply Hk.
Qed.

Lemma ends_try_catch A (E' : Error -> Prop) (c : M A) (handler : Error -> M A) :
  ends E' C c -> (forall e, E' e -> ends E C (handler e)) -> ends E C (try_catch c handler).
Proof.
  intros Hc Hh s. unfold try_catch. specialize (Hc s).
  destruct (c s) as [a s1 | e s1 | code s1]; auto. apply Hh. exact Hc.
Qed.

Lemma ends_forEach A (l : list A) (body : A -> M unit) :
  (forall x, In x l -> ends E C (body x)) -> ends E C (forEach l body).
Proof.
  induction l as [| x rest IH]; intro Hb; simpl.
  - apply ends_ret.
  - apply ends_bind; [apply Hb; simpl; auto |]. intros _. apply IH.
    intros y Hy. apply Hb. simpl. auto.
Qed.

Lemma ends_some A (l : list A) (test : A -> M bool) :
  (forall x, ends E C (test x)) -> ends E C (some l test).
Proof.
  intro Hb. induction l as [| x rest IH]; simpl.
  - apply ends_ret.
  - apply ends_bind; auto. intros []; auto using ends_ret.
Qed.

Lemma ends_mapM A B (f : A -> M B) (l : list A) :
  (forall x, In x l -> ends E C (f x)) -> ends E C (mapM f l).
Proof.
  induction l as [| x rest IH]; intro Hf; simpl.
  - apply ends_ret.
  - apply ends_bind; [apply Hf; simpl; auto |]. intro y.
    apply ends_bind; [apply IH; intros z Hz; apply Hf; simpl; auto |].
    intro ys. apply ends_ret.
Qed.

End Ends.

Lemma ends_weaken A (E E' : Error -> Prop) (C C' : Z -> Prop) (c : M A) :
  (forall e, E e -> E' e) -> (forall z, C z -> C' z) -> ends E C c -> ends E' C' c.
Proof.
  intros HE HC Hc s. specialize (Hc s). destruct (c s); auto.
Qed.

Create HintDb ends.

Ltac finish :=
  repeat
    match goal with
    | |- ends _ _ (ret _) => apply ends_ret
    | |- ends _ _ (emit _) => apply ends_emit
    | |- ends _ _ (spawn _) => apply ends_spawn
    | |- ends _ _ (setExitCode _) => apply ends_setExitCode
    | |- ends _ _ (process_exit _) => apply ends_process_exit; solve [simpl; auto]
    | |- ends _ _ (throw _) => apply ends_throw; solve [simpl; auto]
    | |- ends _ _ (bind _ _) => apply ends_bind; [| intro]
    | |- ends _ _ (forEach _ _) => apply ends_forEach; intros ? ?
    | |- ends _ _ (some _ _) => apply ends_some; intro
    | |- ends _ _ (if ?b then _ else _) => destruct b
    | |- ends _ _ _ => solve [auto with ends]
    end.

(** ** What the settings are made of *)

Section SettingsFacts.

Variable w : World.
Variable inv : Invocation.

Lemma checkEditorConfig_Ok filename s v s' :
  checkEditorConfig w filename s = Ok v s' ->
  v = Some filename /\ truthy (resolve w filename) = true.
Proof.
  unfold checkEditorConfig. destruct (truthy (resolve w filename)); simpl.
  - unfold bind, log_info, emit, ret. intro H. inversion H. auto.
  - unfold bind, log_fatal, emit, process_exit. discriminate.
Qed.

Lemma truthy_resolve_exists filename :
  truthy (resolve w filename) = true -> existsSync w (pathResolve w filename) = true.
Proof.
  unfold resolve. destruct (existsSync w (pathResolve w filename)); simpl; congruence.
Qed.

Lemma parse_Ok opts : forall program s program' s',
  parse w opts program s = Ok program' s' ->
  Commander.ignores program' = lastIgnores opts (Commander.ignores program) /\
  Commander.json program' = lastJson opts (Commander.json program) /\
  Commander.editorconfig program'
  = lastEditorconfig opts (Commander.editorconfig program) /\
  (forall file, In (OptEditorconfig file) opts -> truthy (resolve w file) = true).
Proof.
  induction opts as [| o rest IH]; intros program s program' s' H; simpl in H.
  - inversion H; subst. simpl. repeat split; auto.
  - destruct o; unfold lastIgnores, lastJson, lastEditorconfig; simpl;
      fold (lastIgnores rest); fold (lastJson rest); fold (lastEditorconfig rest).
    + apply bind_Ok in H. destruct H as (v & s1 & Hcheck & H).
      apply checkEditorConfig_Ok in Hcheck. destruct Hcheck as [-> Hres].
      apply IH in H. simpl in H. destruct H as (Hi & Hj & He & Hall).
      repeat split; auto. intros f [Hf | Hf]; [inversion Hf; subst; auto | auto].
    + apply IH in H. simpl in H. destruct H as (Hi & Hj & He & Hall).
      repeat split; auto. intros f [Hf | Hf]; [discriminate | auto].
    + apply IH in H. simpl in H. destruct H as (Hi & Hj & He & Hall).
      repeat split; auto. intros f [Hf | Hf]; [discriminate | auto].
    + apply IH in H. simpl in H. destruct H as (Hi & Hj & He & Hall).
      repeat split; auto. intros f [Hf | Hf]; [discriminate | auto].
    + apply IH in H. destruct H as (Hi & Hj & He & Hall).
      repeat split; auto. intros f [Hf | Hf]; [discriminate | auto].
Qed.

Lemma makeSettings_json program s st s' :
  makeSettings w program s = Ok st s' ->
  json st = (if truthy (Commander.json program)
             then str (Commander.json program)
             else DEFAULT_JSON_FILENAME).
Proof.
  unfold makeSettings. intro H. apply bind_Ok in H.
  destruct H as (ec & s1 & _ & Hret). inversion Hret. reflexivity.
Qed.

Lemma lastEditorconfig_In opts : forall init file,
  lastEditorconfig opts init = Some file ->
  In (OptEditorconfig file) opts \/ init = Some file.
Proof.
  induction opts as [| o rest IH]; intros init file H; simpl in H; auto.
  destruct o; apply IH in H; simpl; destruct H as [H | H]; auto.
  inversion H. auto.
Qed.

Lemma settings_of_main m s :
  main w inv initial = Ok m s ->
  editorconfig (settings m) = Some (editorconfigOf (options inv)) /\
  truthy (Some (editorconfigOf (options inv))) = true /\
  truthy (resolve w (editorconfigOf (options inv))) = true /\
  ignores (settings m)
  = lastIgnores (options inv) (IgnoresList ["js-comments"; "html-comments"]) /\
  json (settings m) = jsonOf (options inv).
Proof.
  intro Hmain.
  destruct (main_Ok w inv Hmain) as (program & s1 & s2 & s3 & Hparse & Hsettings & _).
  apply parse_Ok in Hparse. simpl in Hparse. destruct Hparse as (Hi & Hj & He & Hall).
  unfold makeSettings in Hsettings. apply bind_Ok in Hsettings.
  destruct Hsettings as (ec & s1' & Hec & Hret). inversion Hret as [[Hst Hs]]; clear Hret.
  simpl. rewrite Hi, Hj. unfold editorconfigOf, jsonOf. rewrite He in Hec.
  destruct (truthy (lastEditorconfig (options inv) None)) eqn:Htruthy.
  - inversion Hec; subst ec.
    destruct (lastEditorconfig (options inv) None) as [file |] eqn:Hlast; [| discriminate].
    simpl str. repeat split; auto.
    apply lastEditorconfig_In in Hlast. destruct Hlast as [Hin | Hnone]; [auto | discriminate].
  - apply checkEditorConfig_Ok in Hec. destruct Hec as [-> Hres]. repeat split; auto.
Qed.

End SettingsFacts.

Section EndsOfScript.

Variable w : World.
Variable inv : Invocation.

Ltac open_log :=
  unfold log_debug, log_info, log_error, log_fatal, program_help.

Lemma checkEditorConfig_ends filename :
  ends never (eq 1%Z) (checkEditorConfig w filename).
Proof. unfold checkEditorConfig. open_log. finish. Qed.

Lemma parse_ends opts program : ends never (eq 1%Z) (parse w opts program).
Proof.
  revert program. induction opts as [| o rest IH]; intro program; simpl.
  - apply ends_ret.
  - destruct o; auto. apply ends_bind; auto using checkEditorConfig_ends.
Qed.

Lemma makeSettings_ends program : ends never (eq 1%Z) (makeSettings w program).
Proof.
  unfold makeSettings. apply ends_bind; [| intro; apply ends_ret].
  destruct (truthy _); auto using ends_ret, checkEditorConfig_ends.
Qed.

Lemma validate_ends filePath : ends never never (validate inv filePath).
Proof. unfold validate. open_log. finish. Qed.

#[local] Hint Resolve validate_ends : ends.

Lemma onFile_ends excludes file : ends never never (onFile w inv excludes file).
Proof. unfold onFile. open_log. finish. Qed.

Lemma printReport_ends report : ends never never (printReport w report).
Proof. unfold printReport. open_log. finish. Qed.

Lemma onLstat_ends settings filePath :
  ends (CrashCause w inv) never (onLstat w inv settings filePath).
Proof.
  unfold onLstat. destruct (lstat w filePath) as [[|] | err] eqn:Hstat; simpl.
  - apply ends_ret.
  - open_log. apply ends_bind; [finish | intros _].
    apply ends_bind; [finish | intros _].
    apply ends_bind.
    + apply ends_lift. intros e He. eapply crash_validator; eauto.
    + intro report. eapply ends_weaken; [| | apply printReport_ends]; auto.
      unfold never. contradiction.
  - apply ends_throw. eapply crash_lstat; eauto.
Qed.

Lemma onGlob_ends excludes it :
  ends (CrashCause w inv) never (onGlob w inv excludes it).
Proof.
  unfold onGlob. destruct (glob w it) as [files | err] eqn:Hglob.
  - apply ends_forEach. intros file _.
    eapply ends_weaken; [| | apply onFile_ends]; auto. unfold never. contradiction.
  - apply ends_throw. eapply crash_glob; eauto.
Qed.

Lemma processInput_ends v : ends (fun _ => True) never (processInput w inv v).
Proof.
  unfold processInput. apply ends_bind; [apply ends_lift; auto |]. intro items.
  apply ends_forEach. intros it _. unfold processItem.
  destruct it; try (apply ends_throw; exact I).
  destruct (truthy _).
  - eapply ends_weaken; [| | apply validate_ends]; auto.
  - open_log. finish.
Qed.

(** Whatever goes wrong in the callback of the manifest read is caught. *)
Lemma onReadFile_ends found : ends never (eq 0%Z) (onReadFile w inv found).
Proof.
  unfold onReadFile. open_log.
  apply ends_bind; [finish | intros _].
  apply ends_try_catch with (E' := fun _ => True); [| intros e _; finish].
  do 3 (apply ends_bind; [apply ends_lift; auto | intro]).
  destruct (_ || _); [finish |].
  apply ends_bind; [apply ends_lift; auto | intro text].
  apply ends_bind; [finish | intros _].
  eapply ends_weaken; [| | apply processInput_ends]; auto.
  unfold never. contradiction.
Qed.

Lemma runTask_ends m t : ends (CrashCause w inv) (eq 0%Z) (runTask w inv m t).
Proof.
  destruct t as [filePath | it | found]; simpl.
  - eapply ends_weaken; [| | apply onLstat_ends]; auto. unfold never. contradiction.
  - eapply ends_weaken; [| | apply onGlob_ends]; auto. unfold never. contradiction.
  - eapply ends_weaken; [| | apply onReadFile_ends]; auto. unfold never. contradiction.
Qed.

Lemma bind_result A B (c : M A) (k : A -> M B) s :
  (exists a s1, c s = Ok a s1 /\ bind c k s = k a s1) \/
  (exists e s1, c s = Throw e s1 /\ bind c k s = Throw e s1) \/
  (exists code s1, c s = Exit code s1 /\ bind c k s = Exit code s1).
Proof.
  unfold bind. destruct (c s) as [a s1 | e s1 | code s1]; eauto 6.
Qed.

Lemma mapM_RegExp_new_ends l :
  ends (fun e => exists regexp, In regexp l /\ regexp_error w regexp = Some e) never
       (mapM (RegExp_new w) l).
Proof.
  apply ends_mapM. intros regexp Hin. unfold RegExp_new.
  destruct (regexp_error w regexp) eqn:Herr.
  - apply ends_throw. eauto.
  - apply ends_ret.
Qed.

Lemma dispatch_ends settings :
  ends (fun e => args inv = [] /\ resolve w (json settings) = None /\
                 e = ERR_INVALID_ARG_TYPE)
       never (dispatch w inv settings).
Proof.
  intro s. destruct (args inv) as [| a rest] eqn:Hargs.
  - unfold dispatch. rewrite Hargs. simpl.
    destruct (resolve w (json settings)); simpl; auto.
  - rewrite dispatch_args by (rewrite Hargs; discriminate).
    rewrite forEach_processItem. exact I.
Qed.

(** How the module body can end: with [log.fatal], or with one of two
    exceptions. *)
Lemma main_ends :
  match main w inv initial with
  | Ok _ _ => True
  | Throw e _ => CrashCause w inv e
  | Exit code _ => code = 1%Z
  end.
Proof.
  unfold main.
  destruct (bind_result (parse w (options inv) Commander.defaults)
              (fun program =>
                 settings <- makeSettings w program ;;
                 log_debug inv ("Using settings: " ++ inspect w settings)%string ;;
                 log_debug inv ("Passed args: '" ++ join (args inv) ++ "'")%string ;;
                 setExitCode 0 ;;
                 excludes <- mapM (RegExp_new w) (exclude settings) ;;
                 dispatch w inv settings ;;
                 ret {| settings := settings; excludes := excludes |}) initial)
    as [(program & s1 & Hparse & ->) | [(e & s1 & Hparse & ->) | (code & s1 & Hparse & ->)]].
  2: { pose proof (parse_ends (options inv) Commander.defaults initial) as H.
       rewrite Hparse in H. contradiction. }
  2: { pose proof (parse_ends (options inv) Commander.defaults initial) as H.
       rewrite Hparse in H. auto. }
  pose proof (parse_exclude w _ _ _ Hparse) as Hex. simpl in Hex.
  destruct (parse_Ok w _ _ _ Hparse) as (_ & Hj & _). simpl in Hj.
  match goal with
  | |- match bind ?c ?k ?s with _ => _ end =>
      destruct (bind_result c k s)
        as [(st & s2 & Hst & ->) | [(e & s2 & Hst & ->) | (code & s2 & Hst & ->)]]
  end.
  2: { pose proof (makeSettings_ends program s1) as H. rewrite Hst in H. contradiction. }
  2: { pose proof (makeSettings_ends program s1) as H. rewrite Hst in H. auto. }
  pose proof (@makeSettings_json w _ _ _ _ Hst) as Hjson. rewrite Hj in Hjson.
  fold (jsonOf (options inv)) in Hjson.
  apply makeSettings_exclude in Hst. rewrite Hex in Hst.
  assert (Hrest : ends (CrashCause w inv) never
            (log_debug inv ("Using settings: " ++ inspect w st)%string ;;
             log_debug inv ("Passed args: '" ++ join (args inv) ++ "'")%string ;;
             setExitCode 0 ;;
             excludes <- mapM (RegExp_new w) (exclude st) ;;
             dispatch w inv st ;;
             ret {| settings := st; excludes := excludes |})).
  { unfold log_debug.
    apply ends_bind; [finish | intros _].
    apply ends_bind; [finish | intros _].
    apply ends_bind; [finish | intros _].
    apply ends_bind.
    - eapply ends_weaken; [| | apply mapM_RegExp_new_ends]; auto.
      intros e (regexp & Hin & Herr). rewrite Hst in Hin.
      eapply crash_regexp; eauto.
    - intro rs. apply ends_bind; [| intro; apply ends_ret].
      eapply ends_weaken; [| | apply dispatch_ends]; auto.
      intros e (Hargs & Hmissing & ->). rewrite Hjson in Hmissing.
      apply crash_manifest_missing; auto. }
  specialize (Hrest s2).
  match goal with |- match ?r with _ => _ end => destruct r; auto; contradiction end.
Qed.

End EndsOfScript.

(** X2: whatever the schedule, a process that has ended has ended with
    status 0 or 1. *)
Theorem exit_status_zero_or_one w inv c code :
  Reachable w inv c ->
  exitStatus c = Some code ->
  code = 0%Z \/ code = 1%Z.
Proof.
  intro Hr. revert code. induction Hr as [| c c' Hr IH Hstep]; intros code Hcode.
  - unfold boot in Hcode. pose proof (main_ends w inv) as H.
    destruct (main w inv initial); simpl in Hcode; inversion Hcode; subst; auto.
  - inversion Hstep as [m s before t after Hpend | m s Hpend]; subst.
    + pose proof (runTask_ends w inv m t (without s (before ++ after))) as H.
      unfold bind in Hcode. destruct (runTask w inv m t (without s (before ++ after)));
        simpl in Hcode; inversion Hcode; subst; auto.
    + simpl in Hcode. inversion Hcode; subst.
      destruct (exitCode_invariant Hr) as [H01 _]. exact H01.
Qed.

Lemma exit_status_zero_or_one_witness :
  Reachable Demo.bareWorld Demo.readme
    (run Demo.bareWorld Demo.readme 1 (boot Demo.bareWorld Demo.readme)) /\
  exitStatus (run Demo.bareWorld Demo.readme 1 (boot Demo.bareWorld Demo.readme))
  = Some 1%Z /\
  (1%Z = 0%Z \/ 1%Z = 1%Z).
Proof.
  assert (Hr : Reachable Demo.bareWorld Demo.readme
                 (run Demo.bareWorld Demo.readme 1 (boot Demo.bareWorld Demo.readme)))
    by (apply run_Reachable, reach_boot).
  assert (Hs : exitStatus
                 (run Demo.bareWorld Demo.readme 1 (boot Demo.bareWorld Demo.readme))
               = Some 1%Z) by reflexivity.
  split; [exact Hr |]. split; [exact Hs |].
  exact (exit_status_zero_or_one Hr Hs).
Defined.

(** X3: an uncaught exception has one of five causes: a pattern of the
    exclude list that is not a regular expression, no positional argument
    and no manifest at the path of the [json] setting to fall back to, a
    failed stat, a failure of the validator on a file, a rejected glob. A manifest that cannot be read or parsed, or holds
    something else than patterns, never kills the process. *)
Theorem crash_causes w inv e tr :
  Reachable w inv (Crashed e tr) ->
  CrashCause w inv e.
Proof.
  intro Hr. remember (Crashed e tr) as c eqn:Hc. revert e tr Hc.
  induction Hr as [| c c' Hr IH Hstep]; intros e tr Hc.
  - unfold boot in Hc. pose proof (main_ends w inv) as H.
    destruct (main w inv initial); simpl in Hc; inversion Hc; subst; auto.
  - inversion Hstep as [m s before t after Hpend | m s Hpend]; subst; [| discriminate].
    pose proof (runTask_ends w inv m t (without s (before ++ after))) as H.
    match goal with H0 : settle _ = Crashed _ _ |- _ => rename H0 into Hs end.
    unfold bind in Hs. destruct (runTask w inv m t (without s (before ++ after)));
      simpl in Hs; inversion Hs; subst; auto.
Qed.

Lemma crash_causes_witness :
  Reachable Demo.projectWorld Demo.noArguments
    (Crashed ERR_INVALID_ARG_TYPE
       [ConsoleLog ("Using '.editorconfig' from: " ++ dquote ++ "/work/.editorconfig"
                    ++ dquote)%string]) /\
  CrashCause Demo.projectWorld Demo.noArguments ERR_INVALID_ARG_TYPE.
Proof.
  assert (Hr : Reachable Demo.projectWorld Demo.noArguments
                 (Crashed ERR_INVALID_ARG_TYPE
                    [ConsoleLog ("Using '.editorconfig' from: " ++ dquote
                                 ++ "/work/.editorconfig" ++ dquote)%string]))
    by exact (reach_boot Demo.projectWorld Demo.noArguments).
  split; [exact Hr |].
  exact (crash_causes Hr).
Defined.

(** ** The loop drains *)

Section Spawns.

Variable w : World.
Variable inv : Invocation.

Lemma load_app ts1 ts2 : load w (ts1 ++ ts2) = load w ts1 + load w ts2.
Proof. unfold load. rewrite map_app, list_sum_app. reflexivity. Qed.

Lemma spawnsAtMost_quiet A (c : M A) :
  confined (fun _ => True) never (fun _ => True) c -> spawnsAtMost w 0 c.
Proof.
  intros Hc s. destruct (Hc s) as (_ & _ & (ts & Ht & Hq)).
  apply Forall_never_nil in Hq. subst ts. exists []. split; auto.
Qed.

Lemma spawnsAtMost_weaken A bound bound' (c : M A) :
  bound <= bound' -> spawnsAtMost w bound c -> spawnsAtMost w bound' c.
Proof.
  intros Hle Hc s. destruct (Hc s) as (ts & Ht & Hl). exists ts. split; auto. lia.
Qed.

Lemma spawnsAtMost_spawn t : spawnsAtMost w (weight w t) (spawn t).
Proof.
  intro s. exists [t]. split; [reflexivity |]. unfold load. simpl. lia.
Qed.

Lemma spawnsAtMost_bind A B b1 b2 (c : M A) (k : A -> M B) :
  spawnsAtMost w b1 c -> (forall a, spawnsAtMost w b2 (k a)) ->
  spawnsAtMost w (b1 + b2) (bind c k).
Proof.
  intros Hc Hk s. unfold bind. destruct (Hc s) as (ts1 & Ht1 & Hl1).
  destruct (c s) as [a s1 | e s1 | code s1]; simpl in *.
  - destruct (Hk a s1) as (ts2 & Ht2 & Hl2). exists (ts1 ++ ts2).
    rewrite Ht2, Ht1, app_assoc, load_app. split; auto. lia.
  - exists ts1. split; auto. lia.
  - exists ts1. split; auto. lia.
Qed.

Lemma spawnsAtMost_bind_lift A B bound (c : Completion A) (k : A -> M B) :
  (forall a, c = Return a -> spawnsAtMost w bound (k a)) ->
  spawnsAtMost w bound (bind (lift c) k).
Proof.
  intros Hk s. destruct c as [a | e]; simpl.
  - apply (Hk a eq_refl).
  - exists []. rewrite app_nil_r. split; [reflexivity |]. unfold load. simpl. lia.
Qed.

Lemma spawnsAtMost_try_catch A b1 b2 (c : M A) (handler : Error -> M A) :
  spawnsAtMost w b1 c -> (forall e, spawnsAtMost w b2 (handler e)) ->
  spawnsAtMost w (b1 + b2) (try_catch c handler).
Proof.
  intros Hc Hh s. unfold try_catch. destruct (Hc s) as (ts1 & Ht1 & Hl1).
  destruct (c s) as [a s1 | e s1 | code s1]; simpl in *.
  - exists ts1. split; auto. lia.
  - destruct (Hh e s1) as (ts2 & Ht2 & Hl2). exists (ts1 ++ ts2).
    rewrite Ht2, Ht1, app_assoc, load_app. split; auto. lia.
  - exists ts1. split; auto. lia.
Qed.

Lemma spawnsAtMost_forEach A (l : list A) (body : A -> M unit) (f : A -> nat) :
  (forall x, spawnsAtMost w (f x) (body x)) ->
  spawnsAtMost w (list_sum (map f l)) (forEach l body).
Proof.
  intro Hb. induction l as [| x rest IH]; simpl.
  - intro s. exists []. rewrite app_nil_r. split; [reflexivity | unfold load; simpl; lia].
  - apply spawnsAtMost_bind; auto.
Qed.

Lemma list_sum_ones A (l : list A) : list_sum (map (fun _ => 1) l) = List.length l.
Proof. induction l; simpl; auto. Qed.

Lemma quiet_weaken A (P : Event -> Prop) (X : Z -> Prop) (c : M A) :
  confined P never X c -> confined (fun _ => True) never (fun _ => True) c.
Proof. intro Hc. eapply confined_weaken; [| | | exact Hc]; auto. Qed.

Lemma validate_spawns filePath : spawnsAtMost w 1 (validate inv filePath).
Proof.
  unfold validate.
  change 1 with (0 + (0 + weight w (TLstat filePath))).
  apply spawnsAtMost_bind; [| intros _; apply spawnsAtMost_bind; intros].
  - apply spawnsAtMost_quiet. unfold log_debug. confine.
  - apply spawnsAtMost_quiet. confine.
  - apply spawnsAtMost_spawn.
Qed.

Lemma onFile_spawns excludes file : spawnsAtMost w 1 (onFile w inv excludes file).
Proof.
  unfold onFile. change 1 with (0 + 1).
  apply spawnsAtMost_bind.
  - apply spawnsAtMost_quiet. unfold log_debug, log_info. confine.
  - intros []; simpl.
    + apply spawnsAtMost_weaken with (bound := 0); [lia |].
      apply spawnsAtMost_quiet. confine.
    + apply validate_spawns.
Qed.

Lemma onGlob_spawns excludes it :
  spawnsAtMost w (globWeight w it) (onGlob w inv excludes it).
Proof.
  unfold onGlob, globWeight. destruct (glob w it) as [files | err].
  - rewrite <- list_sum_ones. apply spawnsAtMost_forEach. intro. apply onFile_spawns.
  - apply spawnsAtMost_quiet. confine.
Qed.

Lemma onLstat_spawns settings filePath :
  spawnsAtMost w 0 (onLstat w inv settings filePath).
Proof.
  apply spawnsAtMost_quiet. eapply quiet_weaken. apply onLstat_confined.
Qed.

Lemma processItem_spawns it : spawnsAtMost w (itemWeight w it) (processItem w inv it).
Proof.
  destruct it; simpl; try (apply spawnsAtMost_quiet; confine).
  destruct (truthy (resolve w s)); [apply validate_spawns |].
  change (S (globWeight w s)) with (0 + (0 + weight w (TGlob s))).
  apply spawnsAtMost_bind; [| intros _; apply spawnsAtMost_bind; intros].
  - apply spawnsAtMost_quiet. unfold log_debug. confine.
  - apply spawnsAtMost_quiet. confine.
  - apply spawnsAtMost_spawn.
Qed.

Lemma onReadFile_spawns found :
  spawnsAtMost w (list_sum (map (itemWeight w) (manifestItems w found)))
               (onReadFile w inv found).
Proof.
  unfold onReadFile.
  match goal with
  | |- spawnsAtMost w ?b _ => apply spawnsAtMost_weaken with (bound := 0 + (b + 0)); [lia |]
  end.
  apply spawnsAtMost_bind; [apply spawnsAtMost_quiet; unfold log_debug; confine | intros _].
  apply spawnsAtMost_try_catch;
    [| intro; apply spawnsAtMost_quiet; unfold log_error; confine].
  unfold manifestItems.
  apply spawnsAtMost_bind_lift. intros data ->.
  apply spawnsAtMost_bind_lift. intros parsed ->.
  apply spawnsAtMost_bind_lift. intros patterns ->.
  destruct (negb (truthyJSON patterns) || lengthIsZero patterns).
  - eapply spawnsAtMost_weaken; [apply Nat.le_0_l |].
    apply spawnsAtMost_quiet. unfold log_info, program_help. confine.
  - apply spawnsAtMost_bind_lift. intros text _.
    match goal with |- spawnsAtMost w ?b _ => change b with (0 + b) end.
    apply spawnsAtMost_bind; [apply spawnsAtMost_quiet; unfold log_info; confine | intros _].
    unfold processInput. apply spawnsAtMost_bind_lift. intros items ->.
    apply spawnsAtMost_forEach. intro. apply processItem_spawns.
Qed.

(** A callback starts less work than it stands for. *)
Lemma runTask_spawns m t s :
  exists ts,
    pending (stateOf (runTask w inv m t s)) = pending s ++ ts /\
    S (load w ts) <= weight w t.
Proof.
  destruct t as [filePath | it | found]; simpl.
  - destruct (onLstat_spawns (settings m) filePath s) as (ts & Ht & Hl). exists ts. split; auto. lia.
  - destruct (onGlob_spawns (excludes m) it s) as (ts & Ht & Hl). exists ts. split; auto. lia.
  - destruct (onReadFile_spawns found s) as (ts & Ht & Hl). exists ts. split; auto. lia.
Qed.

Lemma measure_settle m (r : Result unit) :
  measure w (settle (match r with
                     | Ok _ s => Ok m s
                     | Throw e s => Throw e s
                     | Exit code s => Exit code s
                     end))
  <= 1 + load w (pending (stateOf r)).
Proof. destruct r; simpl; lia. Qed.

Lemma step_measure c c' : step w inv c c' -> measure w c' < measure w c.
Proof.
  intro Hstep. inversion Hstep as [m s before t after Hpend | m s Hpend]; subst.
  - destruct (runTask_spawns m t (without s (before ++ after))) as (ts & Ht & Hl).
    simpl in Ht.
    assert (Hm : measure w (settle (bind (runTask w inv m t) (fun _ => ret m)
                                         (without s (before ++ after))))
                 <= 1 + load w (pending (stateOf (runTask w inv m t
                                                    (without s (before ++ after)))))).
    { unfold bind.
      destruct (runTask w inv m t (without s (before ++ after))); simpl; lia. }
    rewrite Ht in Hm. simpl measure at 2. rewrite Hpend.
    change (t :: after) with ([t] ++ after).
    rewrite !load_app in *.
    assert (Hone : load w [t] = weight w t) by (unfold load; simpl; lia).
    lia.
  - simpl. lia.
Qed.

Lemma turns_measure n c c' : turns w inv n c c' -> n + measure w c' <= measure w c.
Proof.
  induction 1 as [c | n c c' c'' Hstep Hturns IH]; simpl; [lia |].
  apply step_measure in Hstep. lia.
Qed.

Lemma turns_final n c c' :
  turns w inv n c c' -> exitStatus c <> None -> n = 0 /\ c' = c.
Proof.
  intros Ht Hfinal. destruct Ht as [c | n c c' c'' Hstep _]; auto.
  inversion Hstep; subst; simpl in Hfinal; congruence.
Qed.

Lemma run_final fuel c : exitStatus c <> None -> run w inv fuel c = c.
Proof.
  intro Hfinal. induction fuel as [| fuel IH]; simpl; auto.
  destruct c; simpl in *; auto. congruence.
Qed.

(** The oldest-first schedule, as turns. *)
Lemma turns_run n : forall c,
  match n with
  | O => True
  | S k => exitStatus (run w inv k c) = None
  end ->
  turns w inv n c (run w inv n c).
Proof.
  induction n as [| n IH]; intros c Hrunning; [apply turns_O |].
  destruct c as [m s | code tr | e tr].
  - apply turns_S with (c' := next w inv (Running m s)); [apply next_step |].
    simpl run. apply IH. destruct n; [exact I | exact Hrunning].
  - rewrite run_final in Hrunning; simpl in *; congruence.
  - rewrite run_final in Hrunning; simpl in *; congruence.
Qed.

End Spawns.

(** X1: the event loop drains under every schedule. From any
    configuration, a sequence of turns is no longer than the measure of
    the configuration, which counts the waiting callbacks and those they
    can start; and as long as the process has not ended, another turn is
    possible. *)
Theorem event_loop_drains w inv n c c' :
  turns w inv n c c' ->
  n + measure w c' <= measure w c /\
  (exitStatus c' = None -> exists c'', step w inv c' c'').
Proof.
  intro Hturns. split.
  - apply turns_measure with (inv := inv). exact Hturns.
  - intro Hrunning. destruct c' as [m s | |]; try discriminate.
    exists (next w inv (Running m s)). apply next_step.
Qed.

Lemma event_loop_drains_witness :
  turns Demo.projectWorld Demo.mixed 2
    (boot Demo.projectWorld Demo.mixed)
    (run Demo.projectWorld Demo.mixed 2 (boot Demo.projectWorld Demo.mixed)) /\
  2 + measure Demo.projectWorld
        (run Demo.projectWorld Demo.mixed 2 (boot Demo.projectWorld Demo.mixed))
  <= measure Demo.projectWorld (boot Demo.projectWorld Demo.mixed) /\
  (exitStatus (run Demo.projectWorld Demo.mixed 2 (boot Demo.projectWorld Demo.mixed)) = None ->
   exists c'',
     step Demo.projectWorld Demo.mixed
       (run Demo.projectWorld Demo.mixed 2 (boot Demo.projectWorld Demo.mixed)) c'').
Proof.
  assert (Ht : turns Demo.projectWorld Demo.mixed 2
                 (boot Demo.projectWorld Demo.mixed)
                 (run Demo.projectWorld Demo.mixed 2 (boot Demo.projectWorld Demo.mixed)))
    by (apply turns_run; reflexivity).
  split; [exact Ht |].
  exact (event_loop_drains Ht).
Defined.

(** ** What the glob callback lets through *)

Section GlobFilter.

Variable w : World.
Variable inv : Invocation.

Lemma validate_exact filePath s :
  validate inv filePath s
  = Ok tt {| exitCode := exitCode s;
             pending := pending s ++ [TLstat filePath];
             trace := trace s ++ debugLine inv ("Loading " ++ filePath ++ "...")%string
                      ++ [Lstat filePath] |}.
Proof.
  unfold validate, log_debug, debugLine, bind, emit, spawn, ret.
  destruct (VERBOSE inv); cbn [exitCode pending trace];
    rewrite <- ?app_assoc; reflexivity.
Qed.

Lemma filter_console f evs :
  (forall m, f (ConsoleLog m) = false) -> (forall m, f (ConsoleWarn m) = false) ->
  Forall consoleEvent evs -> filter f evs = [].
Proof.
  intros Hl Hw Hc. induction Hc as [| e evs He _ IH]; simpl; auto.
  destruct e; simpl in He; try contradiction; rewrite ?Hl, ?Hw; exact IH.
Qed.

(** The paths of [files] that no rule matches. *)
Lemma forEach_onFile_exact excludes files : forall s,
  exists s' evs,
    forEach files (onFile w inv excludes) s = Ok tt s' /\
    exitCode s' = exitCode s /\
    pending s' = pending s
                 ++ map TLstat (filter (fun f => negb (excludedBy w excludes f)) files) /\
    trace s' = trace s ++ evs /\
    filter isLstat evs
    = map Lstat (filter (fun f => negb (excludedBy w excludes f)) files) /\
    filter isGlob evs = [] /\
    Forall inputEvent evs.
Proof.
  induction files as [| file rest IH]; intro s; cbn [forEach filter map].
  - exists s, []. rewrite !app_nil_r. repeat split; auto.
  - unfold bind at 1.
    destruct (excludedBy w excludes file) eqn:Hmatch; cbn [negb map];
      unfold excludedBy in Hmatch.
    + destruct (onFile_excluded w inv excludes file s Hmatch)
        as (s1 & -> & Hx & Hp & ev1 & Ht & Hc).
      destruct (IH s1) as (s2 & ev2 & -> & Hx2 & Hp2 & Ht2 & Hl2 & Hg2 & Hi2).
      exists s2, (ev1 ++ ev2). rewrite Hx2, Hp2, Ht2, Hx, Hp, Ht, <- app_assoc.
      rewrite !filter_app, Hl2, Hg2, !(@filter_console _ ev1) by (auto; reflexivity).
      repeat split; auto. apply Forall_app. split; auto.
      eapply Forall_impl; [| exact Hc]. apply consoleEvent_inputEvent.
    + destruct (onFile_kept w inv excludes file s Hmatch)
        as (s1 & (Hx & Hp & ev1 & Ht & Hc) & ->).
      rewrite validate_exact.
      match goal with |- context [forEach rest _ ?s0] => destruct (IH s0)
        as (s2 & ev2 & -> & Hx2 & Hp2 & Ht2 & Hl2 & Hg2 & Hi2) end.
      cbn [exitCode pending trace] in *.
      exists s2, (ev1 ++ (debugLine inv ("Loading " ++ file ++ "...")%string
                          ++ [Lstat file]) ++ ev2).
      rewrite Hx2, Hp2, Ht2, Hx, Hp, Ht, <- !app_assoc.
      rewrite !filter_app, Hl2, Hg2, !(@filter_console _ ev1) by (auto; reflexivity).
      rewrite !filter_debugLine by reflexivity.
      repeat split; auto.
      apply Forall_app. split;
        [eapply Forall_impl; [| exact Hc]; apply consoleEvent_inputEvent |].
      apply Forall_app. split; [| apply Forall_app; split; auto; repeat constructor].
      unfold debugLine. destruct (VERBOSE inv); repeat constructor.
Qed.

End GlobFilter.

(** X5: when the glob of a pattern is fulfilled, the callback asks for
    the stat of exactly the results that no exclusion pattern matches, in
    the order of the results, once each; it starts no glob, leaves the
    exit code alone and returns. *)
Theorem glob_results_are_filtered w inv excludes it files s :
  glob w it = Return files ->
  exists s' evs,
    onGlob w inv excludes it s = Ok tt s' /\
    exitCode s' = exitCode s /\
    pending s' = pending s
                 ++ map TLstat (filter (fun f => negb (excludedBy w excludes f)) files) /\
    trace s' = trace s ++ evs /\
    filter isLstat evs
    = map Lstat (filter (fun f => negb (excludedBy w excludes f)) files) /\
    filter isGlob evs = [] /\
    Forall inputEvent evs.
Proof.
  intro Hglob. unfold onGlob. rewrite Hglob. apply forEach_onFile_exact.
Qed.

Lemma glob_results_are_filtered_witness :
  glob Demo.globbedWorld "lib/*" = Return ["lib/normalize.css"; "lib/site.css"] /\
  exists s' evs,
    onGlob Demo.globbedWorld Demo.noArguments (compiled []) "lib/*" initial = Ok tt s' /\
    exitCode s' = exitCode initial /\
    pending s' = pending initial ++ [TLstat "lib/site.css"] /\
    trace s' = trace initial ++ evs /\
    filter isLstat evs = [Lstat "lib/site.css"] /\
    filter isGlob evs = [] /\
    Forall inputEvent evs.
Proof.
  assert (Hglob : glob Demo.globbedWorld "lib/*"
                  = Return ["lib/normalize.css"; "lib/site.css"]) by reflexivity.
  split; [exact Hglob |].
  exact (@glob_results_are_filtered Demo.globbedWorld Demo.noArguments (compiled []) "lib/*"
           ["lib/normalize.css"; "lib/site.css"] initial Hglob).
Defined.

(** ** Stats and validations, counted *)

Section Effects.

Variable R : list Event -> list Task -> Prop.
Hypothesis R_nil : R [] [].
Hypothesis R_app : forall e1 t1 e2 t2, R e1 t1 -> R e2 t2 -> R (e1 ++ e2) (t1 ++ t2).

Lemma effects_idle A (c : M A) :
  (forall s, stateOf (c s) = s) -> effects R c.
Proof.
  intros Hc s. exists [], []. rewrite Hc, !app_nil_r. auto.
Qed.

Lemma effects_ret A (a : A) : effects R (ret a).
Proof. apply effects_idle. reflexivity. Qed.

Lemma effects_throw A e : effects R (@throw A e).
Proof. apply effects_idle. reflexivity. Qed.

Lemma effects_process_exit A code : effects R (@process_exit A code).
Proof. apply effects_idle. reflexivity. Qed.

Lemma effects_lift A (c : Completion A) : effects R (lift c).
Proof. destruct c; [apply effects_ret | apply effects_throw]. Qed.

Lemma effects_setExitCode code : effects R (setExitCode code).
Proof. intro s. exists [], []. simpl. rewrite !app_nil_r. auto. Qed.

Lemma effects_emit e : R [e] [] -> effects R (emit e).
Proof. intros He s. exists [e], []. simpl. rewrite app_nil_r. auto. Qed.

Lemma effects_spawn t : R [] [t] -> effects R (spawn t).
Proof. intros Ht s. exists [], [t]. simpl. rewrite app_nil_r. auto. Qed.

Lemma effects_bind A B (c : M A) (k : A -> M B) :
  effects R c -> (forall a, effects R (k a)) -> effects R (bind c k).
Proof.
  intros Hc Hk s. unfold bind. destruct (Hc s) as (e1 & t1 & He1 & Ht1 & H1).
  destruct (c s) as [a s1 | e s1 | code s1]; simpl in *; eauto.
  destruct (Hk a s1) as (e2 & t2 & He2 & Ht2 & H2).
  exists (e1 ++ e2), (t1 ++ t2). rewrite He2, Ht2, He1, Ht1, !app_assoc. auto.
Qed.

Lemma effects_try_catch A (c : M A) (handler : Error -> M A) :
  effects R c -> (forall e, effects R (handler e)) -> effects R (try_catch c handler).
Proof.
  intros Hc Hh s. unfold try_catch. destruct (Hc s) as (e1 & t1 & He1 & Ht1 & H1).
  destruct (c s) as [a s1 | e s1 | code s1]; simpl in *; eauto.
  destruct (Hh e s1) as (e2 & t2 & He2 & Ht2 & H2).
  exists (e1 ++ e2), (t1 ++ t2). rewrite He2, Ht2, He1, Ht1, !app_assoc. auto.
Qed.

Lemma effects_forEach A (l : list A) (body : A -> M unit) :
  (forall x, effects R (body x)) -> effects R (forEach l body).
Proof.
  intro Hb. induction l as [| x rest IH]; simpl.
  - apply effects_ret.
  - apply effects_bind; auto.
Qed.

Lemma effects_some A (l : list A) (test : A -> M bool) :
  (forall x, effects R (test x)) -> effects R (some l test).
Proof.
  intro Hb. induction l as [| x rest IH]; simpl.
  - apply effects_ret.
  - apply effects_bind; auto. intros []; auto using effects_ret.
Qed.

Lemma effects_mapM A B (f : A -> M B) (l : list A) :
  (forall x, effects R (f x)) -> effects R (mapM f l).
Proof.
  intro Hf. induction l as [| x rest IH]; simpl.
  - apply effects_ret.
  - apply effects_bind; auto. intro y.
    apply effects_bind; auto. intro ys. apply effects_ret.
Qed.

End Effects.

Create HintDb effects.

Ltac account :=
  repeat
    match goal with
    | |- effects _ (ret _) => apply effects_ret; solve [auto with effects]
    | |- effects _ (throw _) => apply effects_throw; solve [auto with effects]
    | |- effects _ (process_exit _) => apply effects_process_exit; solve [auto with effects]
    | |- effects _ (lift _) => apply effects_lift; solve [auto with effects]
    | |- effects _ (setExitCode _) => apply effects_setExitCode; solve [auto with effects]
    | |- effects _ (emit _) => apply effects_emit; solve [auto with effects]
    | |- effects _ (spawn _) => apply effects_spawn; solve [auto with effects]
    | |- effects _ (bind _ _) => apply effects_bind; [auto with effects | | intro]
    | |- effects _ (try_catch _ _) => apply effects_try_catch; [auto with effects | | intro]
    | |- effects _ (forEach _ _) => apply effects_forEach; [auto with effects | auto with effects | intro]
    | |- effects _ (some _ _) => apply effects_some; [auto with effects | auto with effects | intro]
    | |- effects _ (mapM _ _) => apply effects_mapM; [auto with effects | auto with effects | intro]
    | |- effects _ (if ?b then _ else _) => destruct b
    | |- effects _ (match ?x with _ => _ end) => destruct x
    | |- effects _ _ => solve [auto with effects]
    end.

Section Counting.

Variable w : World.
Variable inv : Invocation.

Lemma count_app A (f : A -> bool) l1 l2 : count f (l1 ++ l2) = count f l1 + count f l2.
Proof. unfold count. rewrite filter_app, length_app. reflexivity. Qed.

Lemma paired_nil : paired [] [].
Proof. intro p. split; reflexivity. Qed.

Lemma paired_app e1 t1 e2 t2 : paired e1 t1 -> paired e2 t2 -> paired (e1 ++ e2) (t1 ++ t2).
Proof.
  intros H1 H2 p. destruct (H1 p) as [V1 L1]. destruct (H2 p) as [V2 L2].
  rewrite !count_app. split; lia.
Qed.

Lemma paired_one e :
  (forall p, isValidateOf p e = false) -> (forall p, isLstatOf p e = false) -> paired [e] [].
Proof.
  intros Hv Hl p. unfold count. simpl. rewrite Hv, Hl. split; reflexivity.
Qed.

Lemma paired_debugLine message : paired (debugLine inv message) [].
Proof.
  unfold debugLine. destruct (VERBOSE inv); [apply paired_one; reflexivity | apply paired_nil].
Qed.

#[local] Hint Resolve paired_nil paired_app : effects.
#[local] Hint Extern 1 (paired [_] []) => apply paired_one; reflexivity : effects.
#[local] Hint Extern 1 (paired [] [TReadFile _]) => intro; split; reflexivity : effects.

Lemma validate_paired filePath : effects paired (validate inv filePath).
Proof.
  intro s. rewrite validate_exact. simpl.
  exists (debugLine inv ("Loading " ++ filePath ++ "...")%string ++ [Lstat filePath]),
         [TLstat filePath].
  split; [reflexivity |]. split; [reflexivity |].
  change [TLstat filePath] with ([] ++ [TLstat filePath]).
  apply paired_app; [apply paired_debugLine |].
  intro p. unfold count. simpl. destruct (filePath =? p)%string; split; reflexivity.
Qed.

#[local] Hint Resolve validate_paired : effects.

Ltac open_log :=
  unfold log_debug, log_info, log_error, log_fatal, program_help.

Lemma onFile_paired excludes file : effects paired (onFile w inv excludes file).
Proof. unfold onFile. open_log. account. Qed.

#[local] Hint Resolve onFile_paired : effects.

Lemma onGlob_paired excludes it : effects paired (onGlob w inv excludes it).
Proof. unfold onGlob. account. Qed.

Lemma processItem_paired it : effects paired (processItem w inv it).
Proof.
  unfold processItem.
  destruct it as [| b | q | it | items | entries];
    try (apply effects_throw; auto with effects).
  destruct (truthy (resolve w it)); [apply validate_paired |].
  intro s0.
  exists (debugLine inv ("Calling GLOB: " ++ it)%string ++ [Glob it]), [TGlob it].
  unfold log_debug, bind, emit, spawn, ret, debugLine.
  destruct (VERBOSE inv); cbn [stateOf trace pending];
    rewrite <- ?app_assoc; (split; [reflexivity |]); (split; [reflexivity |]);
    intro p; split; reflexivity.
Qed.

#[local] Hint Resolve processItem_paired : effects.

Lemma processInput_paired v : effects paired (processInput w inv v).
Proof. unfold processInput. account. Qed.

#[local] Hint Resolve processInput_paired : effects.

Lemma onReadFile_paired found : effects paired (onReadFile w inv found).
Proof. unfold onReadFile. open_log. account. Qed.

Lemma checkEditorConfig_paired filename : effects paired (checkEditorConfig w filename).
Proof. unfold checkEditorConfig. open_log. account. Qed.

#[local] Hint Resolve checkEditorConfig_paired : effects.

Lemma parse_paired opts program : effects paired (parse w opts program).
Proof.
  revert program. induction opts as [| o rest IH]; intro program; simpl.
  - account.
  - destruct o; auto. apply effects_bind; auto with effects.
Qed.

#[local] Hint Resolve parse_paired : effects.

Lemma main_paired : effects paired (main w inv).
Proof.
  unfold main, makeSettings, dispatch, readFile_start, RegExp_new. open_log. account.
Qed.

Lemma onLstat_once settings filePath :
  effects (validatesOnce filePath) (onLstat w inv settings filePath).
Proof.
  intro s. unfold onLstat.
  destruct (lstat w filePath) as [[|] | err]; cbn [negb].
  - exists [], []. rewrite !app_nil_r. repeat split; auto.
  - unfold bind, log_debug, emit, ret.
    destruct (VERBOSE inv); destruct (lintspaces w settings filePath) as [report | e];
      cbn [lift ret throw stateOf exitCode pending trace].
    + match goal with
      | |- context [printReport w report ?s0] =>
          destruct (printReport_printed w report s0) as (s1 & -> & _ & Hp & after & Ht & Hc)
      end.
      cbn [stateOf exitCode pending trace] in *.
      eexists. exists []. rewrite Ht, Hp, (app_nil_r (pending s)), <- !app_assoc.
      split; [reflexivity |]. split; [reflexivity |]. split; [reflexivity |].
      right. eexists [_], after. split; [reflexivity |]. split; auto. repeat constructor.
    + eexists. exists []. rewrite (app_nil_r (pending s)), <- !app_assoc.
      split; [reflexivity |]. split; [reflexivity |]. split; [reflexivity |].
      right. eexists [_], []. split; [reflexivity |]. split; auto. repeat constructor.
    + match goal with
      | |- context [printReport w report ?s0] =>
          destruct (printReport_printed w report s0) as (s1 & -> & _ & Hp & after & Ht & Hc)
      end.
      cbn [stateOf exitCode pending trace] in *.
      eexists. exists []. rewrite Ht, Hp, (app_nil_r (pending s)), <- !app_assoc.
      split; [reflexivity |]. split; [reflexivity |]. split; [reflexivity |].
      right. exists [], after. split; [reflexivity |]. split; auto.
    + eexists. exists []. rewrite (app_nil_r (pending s)).
      split; [reflexivity |]. split; [reflexivity |]. split; [reflexivity |].
      right. exists [], []. split; [reflexivity |]. split; auto.
  - exists [], []. rewrite !app_nil_r. repeat split; auto.
Qed.

Lemma count_console f evs :
  (forall m, f (ConsoleLog m) = false) -> (forall m, f (ConsoleWarn m) = false) ->
  Forall consoleEvent evs -> count f evs = 0.
Proof.
  intros Hl Hw Hc. unfold count. rewrite filter_console; auto.
Qed.

Lemma validatesOnce_counts filePath evs ts p :
  validatesOnce filePath evs ts ->
  ts = [] /\
  count (isLstatOf p) evs = 0 /\
  count (isValidateOf p) evs <= (if (filePath =? p)%string then 1 else 0).
Proof.
  intros [-> [Hc | (before & after & -> & Hb & Ha)]].
  - rewrite !count_console by (auto; reflexivity). repeat split; lia.
  - change (Validate filePath :: after) with ([Validate filePath] ++ after).
    rewrite !count_app, !(@count_console _ before), !(@count_console _ after)
      by (auto; reflexivity).
    unfold count. simpl. destruct (filePath =? p)%string; simpl; repeat split; lia.
Qed.

Lemma count_remove_middle A (f : A -> bool) before t after :
  count f (before ++ t :: after) = count f (before ++ after) + (if f t then 1 else 0).
Proof.
  change (t :: after) with ([t] ++ after). rewrite !count_app.
  unfold count at 2. simpl. destruct (f t); simpl; lia.
Qed.

Lemma count_pendingOf_settle (f : Task -> bool) r :
  count f (pendingOf (settle r)) <= count f (pending (stateOf r)).
Proof. destruct r; simpl; unfold count; simpl; lia. Qed.

End Counting.

(** X6: in every configuration of every run and for every path, the
    validator has run on the path at most as often as its stat was asked
    for, the stats still awaited counted in: a file is validated at most
    once per time it is handed to [validate], and never without. *)
Theorem validated_at_most_once_per_stat w inv c p :
  Reachable w inv c ->
  count (isValidateOf p) (traceOf c) + count (isTLstatOf p) (pendingOf c)
  <= count (isLstatOf p) (traceOf c).
Proof.
  intro Hr. induction Hr as [| c c' Hr IH Hstep].
  - unfold boot. destruct (main_paired w inv initial) as (evs & ts & He & Ht & Hpair).
    destruct (Hpair p) as [Hv Hl].
    pose proof (count_pendingOf_settle (isTLstatOf p) (main w inv initial)) as Hle.
    rewrite traceOf_settle, He. rewrite Ht in Hle. simpl in *. lia.
  - inversion Hstep as [m s before t after Hpend | m s Hpend]; subst.
    + simpl in IH. rewrite Hpend, count_remove_middle in IH.
      pose proof (count_pendingOf_settle (isTLstatOf p)
                    (bind (runTask w inv m t) (fun _ => ret m)
                          (without s (before ++ after)))) as Hle.
      rewrite traceOf_settle. rewrite stateOf_bind_ret in *.
      assert (He : exists evs ts,
                 trace (stateOf (runTask w inv m t (without s (before ++ after))))
                 = trace s ++ evs /\
                 pending (stateOf (runTask w inv m t (without s (before ++ after))))
                 = (before ++ after) ++ ts /\
                 count (isValidateOf p) evs + count (isTLstatOf p) ts
                 <= count (isLstatOf p) evs + (if isTLstatOf p t then 1 else 0)).
      { destruct t as [filePath | it | found]; simpl runTask.
        - destruct (onLstat_once w inv (settings m) filePath (without s (before ++ after)))
            as (evs & ts & He & Ht & Honce).
          exists evs, ts. split; [exact He |]. split; [exact Ht |].
          destruct (validatesOnce_counts p Honce) as (-> & Hl & Hv). simpl.
          unfold count at 2. simpl. lia.
        - destruct (onGlob_paired w inv (excludes m) it (without s (before ++ after)))
            as (evs & ts & He & Ht & Hpair).
          exists evs, ts. split; [exact He |]. split; [exact Ht |].
          destruct (Hpair p). simpl. lia.
        - destruct (onReadFile_paired w inv found (without s (before ++ after)))
            as (evs & ts & He & Ht & Hpair).
          exists evs, ts. split; [exact He |]. split; [exact Ht |].
          destruct (Hpair p). simpl. lia. }
      destruct He as (evs & ts & He & Ht & Hc).
      rewrite He. rewrite Ht in Hle. rewrite !count_app in *. lia.
    + simpl in *. rewrite !count_app. unfold count at 2 3 5. simpl. lia.
Qed.

Lemma validated_at_most_once_per_stat_witness :
  Reachable Demo.warningWorld Demo.twice
    (run Demo.warningWorld Demo.twice 1 (boot Demo.warningWorld Demo.twice)) /\
  count (isValidateOf "/work/a.js")
        (traceOf (run Demo.warningWorld Demo.twice 1 (boot Demo.warningWorld Demo.twice)))
  + count (isTLstatOf "/work/a.js")
          (pendingOf (run Demo.warningWorld Demo.twice 1 (boot Demo.warningWorld Demo.twice)))
  <= count (isLstatOf "/work/a.js")
           (traceOf (run Demo.warningWorld Demo.twice 1 (boot Demo.warningWorld Demo.twice))).
Proof.
  assert (Hr : Reachable Demo.warningWorld Demo.twice
                 (run Demo.warningWorld Demo.twice 1 (boot Demo.warningWorld Demo.twice)))
    by (apply run_Reachable, reach_boot).
  split; [exact Hr |].
  exact (@validated_at_most_once_per_stat _ _ _ "/work/a.js" Hr).
Defined.

(** ** Where the paths of a run come from *)

Section Origin.

Variable w : World.
Variable inv : Invocation.

(** As [Reachable_confined], with a property of the module constants and
    of the callbacks that wait. *)
Lemma Reachable_confined_loaded (G : Loaded -> Prop)
  (P : Event -> Prop) (Q : Task -> Prop) (X : Z -> Prop) :
  P BeforeExit ->
  confined P Q X (main w inv) ->
  (forall m s, main w inv initial = Ok m s -> G m) ->
  (forall m t, G m -> Q t -> confined P Q X (runTask w inv m t)) ->
  forall c, Reachable w inv c ->
    Forall P (traceOf c) /\ Forall Q (pendingOf c) /\
    (forall m s, c = Running m s -> G m).
Proof.
  intros Hexit Hmain Hloaded Htask c Hr. induction Hr as [| c c' Hr IH Hstep].
  - unfold boot. destruct (Hmain initial) as (_ & (evs & He & Hp) & (ts & Ht & Hq)).
    split; [| split].
    + rewrite traceOf_settle, He. exact Hp.
    + apply pendingOf_settle. rewrite Ht. exact Hq.
    + intros m s Hc. apply settle_Running in Hc. eapply Hloaded; eauto.
  - destruct IH as (IHt & IHp & IHg).
    inversion Hstep as [m s before t after Hpend | m s Hpend]; subst.
    + simpl in IHt, IHp. rewrite Hpend in IHp.
      assert (Hq : Q t).
      { apply Forall_app in IHp. destruct IHp as [_ IHp]. inversion IHp; auto. }
      apply Forall_remove_middle in IHp.
      destruct (Htask m t (IHg m s eq_refl) Hq (without s (before ++ after)))
        as (_ & (evs & He & Hp) & (ts & Ht & Hqs)).
      simpl in He, Ht. split; [| split].
      * rewrite traceOf_settle, stateOf_bind_ret, He. apply Forall_app; auto.
      * apply pendingOf_settle. rewrite stateOf_bind_ret, Ht. apply Forall_app; auto.
      * intros m' s' Hc. apply settle_Running in Hc. apply bind_Ok in Hc.
        destruct Hc as ([] & s1 & _ & Hret). inversion Hret; subst. eauto.
    + simpl in *. split; [| split]; auto; [apply Forall_app; auto | discriminate].
Qed.

Lemma main_compiled m s :
  main w inv initial = Ok m s -> excludes m = compiled (options inv).
Proof.
  intro Hmain.
  destruct (main_Ok w inv Hmain) as (program & s1 & s2 & s3 & Hparse & Hsettings & Hex & _).
  apply makeSettings_exclude in Hsettings. apply parse_exclude in Hparse.
  simpl in Hparse. rewrite Hparse in Hsettings. rewrite Hex, Hsettings. reflexivity.
Qed.

Lemma eventsFor_origin it :
  In it (args inv) -> Forall (originEvent w inv) (eventsFor w inv it).
Proof.
  intro Hin. unfold eventsFor, debugLine.
  destruct (truthy (resolve w it)) eqn:Hr; destruct (VERBOSE inv); cbn [app];
    repeat (apply Forall_cons || apply Forall_nil); simpl; auto; left; exists it; auto.
Qed.

Lemma tasksFor_origin it :
  In it (args inv) -> Forall (originTask w inv) (tasksFor w it).
Proof.
  intro Hin. unfold tasksFor.
  destruct (truthy (resolve w it)) eqn:Hr;
    repeat (apply Forall_cons || apply Forall_nil); simpl; auto.
  left. exists it. auto.
Qed.

Lemma Forall_flat_map_In A B (P : B -> Prop) (f : A -> list B) l :
  (forall x, In x l -> Forall P (f x)) -> Forall P (flat_map f l).
Proof.
  intro H. apply Forall_forall. intros y Hy. apply in_flat_map in Hy.
  destruct Hy as (x & Hx & Hy). specialize (H x Hx). rewrite Forall_forall in H. auto.
Qed.

Lemma dispatch_origin settings :
  args inv <> [] ->
  confined (originEvent w inv) (originTask w inv) never (dispatch w inv settings).
Proof.
  intros Hargs s. rewrite dispatch_args by exact Hargs. rewrite forEach_processItem.
  simpl. split; [left; reflexivity |]. split.
  - eexists. split; [reflexivity |]. apply Forall_flat_map_In, eventsFor_origin.
  - eexists. split; [reflexivity |]. apply Forall_flat_map_In, tasksFor_origin.
Qed.

Lemma onGlob_origin excludes it :
  excludes = compiled (options inv) ->
  In it (args inv) -> truthy (resolve w it) = false ->
  confined (originEvent w inv) (originTask w inv) never (onGlob w inv excludes it).
Proof.
  intros -> Hin Hfalsy s. unfold onGlob.
  destruct (glob w it) as [files | err] eqn:Hglob; [| apply grows_refl].
  destruct (forEach_onFile_exact w inv (compiled (options inv)) files s)
    as (s' & evs & -> & Hx & Hp & Ht & Hl & _ & Hi).
  assert (Hkept : forall p,
             In p (filter (fun f => negb (excludedBy w (compiled (options inv)) f)) files) ->
             fromArguments w inv p).
  { intros p Hp'. apply filter_In in Hp'. destruct Hp' as [Hfile Hnot].
    right. exists it, files. repeat split; auto.
    destruct (excludedBy w (compiled (options inv)) p); simpl in Hnot; congruence. }
  simpl. split; [left; exact Hx |]. split.
  - exists evs. split; [exact Ht |]. apply Forall_forall. intros e He.
    rewrite Forall_forall in Hi. specialize (Hi e He).
    destruct e; simpl in *; auto; try contradiction.
    apply Hkept.
    assert (Hin' : In (Lstat filePath) (filter isLstat evs))
      by (apply filter_In; split; auto).
    rewrite Hl in Hin'. apply in_map_iff in Hin'.
    destruct Hin' as (q & Hq & Hin'). inversion Hq; subst. exact Hin'.
  - eexists. split; [exact Hp |]. apply Forall_forall. intros t Ht'.
    apply in_map_iff in Ht'. destruct Ht' as (q & <- & Hq). simpl. auto.
Qed.

Lemma runTask_origin m t :
  excludes m = compiled (options inv) ->
  originTask w inv t ->
  confined (originEvent w inv) (originTask w inv) (eq 1%Z) (runTask w inv m t).
Proof.
  intros Hm Ht. destruct t as [filePath | it | found]; simpl in *.
  - eapply confined_weaken; [| | | apply onLstat_confined]; auto.
    + intros e [He | [-> _]]; [destruct e; simpl in *; auto; contradiction | exact Ht].
    + unfold never. contradiction.
  - destruct Ht as [Hin Hfalsy].
    eapply confined_weaken; [| | | apply onGlob_origin]; eauto.
    unfold never. contradiction.
  - contradiction.
Qed.

End Origin.

(** X12: with positional arguments, every path whose stat is asked for,
    and every path the validator runs on, in any run, is the resolved
    path of an argument that exists, or a result of the glob of an
    argument that does not exist which none of the configured exclusion
    patterns matches. *)
Theorem paths_come_from_arguments w inv c p :
  args inv <> [] ->
  Reachable w inv c ->
  In (Lstat p) (traceOf c) \/ In (Validate p) (traceOf c) ->
  fromArguments w inv p.
Proof.
  intros Hargs Hr Hin.
  destruct (@Reachable_confined_loaded w inv
              (fun m => excludes m = compiled (options inv))
              (originEvent w inv) (originTask w inv) (fun _ => True))
    with (c := c) as (Ht & _); auto.
  - exact I.
  - apply confined_weaken
      with (P := originEvent w inv) (Q := originTask w inv) (X := eq 0%Z); auto.
    apply main_confined_dispatch.
    + intros e He. destruct e; simpl in *; auto; try contradiction.
    + intro settings. eapply confined_weaken; [| | | apply dispatch_origin]; auto.
      unfold never. contradiction.
  - apply main_compiled.
  - intros m t Hm Hq. eapply confined_weaken; [| | | apply runTask_origin]; auto.
  - rewrite Forall_forall in Ht. destruct Hin as [Hin | Hin]; apply (Ht _ Hin).
Qed.

Lemma paths_come_from_arguments_witness :
  args Demo.stylesheets <> [] /\
  Reachable Demo.globbedWorld Demo.stylesheets
    (run Demo.globbedWorld Demo.stylesheets 1 (boot Demo.globbedWorld Demo.stylesheets)) /\
  (In (Lstat "lib/site.css")
      (traceOf (run Demo.globbedWorld Demo.stylesheets 1
                  (boot Demo.globbedWorld Demo.stylesheets))) \/
   In (Validate "lib/site.css")
      (traceOf (run Demo.globbedWorld Demo.stylesheets 1
                  (boot Demo.globbedWorld Demo.stylesheets)))) /\
  fromArguments Demo.globbedWorld Demo.stylesheets "lib/site.css".
Proof.
  assert (Hargs : args Demo.stylesheets <> []) by (simpl; discriminate).
  assert (Hr : Reachable Demo.globbedWorld Demo.stylesheets
                 (run Demo.globbedWorld Demo.stylesheets 1
                    (boot Demo.globbedWorld Demo.stylesheets)))
    by (apply run_Reachable, reach_boot).
  assert (Hin : In (Lstat "lib/site.css")
                   (traceOf (run Demo.globbedWorld Demo.stylesheets 1
                               (boot Demo.globbedWorld Demo.stylesheets))) \/
                In (Validate "lib/site.css")
                   (traceOf (run Demo.globbedWorld Demo.stylesheets 1
                               (boot Demo.globbedWorld Demo.stylesheets))))
    by (left; vm_compute; auto 10).
  split; [exact Hargs |]. split; [exact Hr |]. split; [exact Hin |].
  exact (@paths_come_from_arguments Demo.globbedWorld Demo.stylesheets _ "lib/site.css"
           Hargs Hr Hin).
Defined.

(** ** The patterns of the manifest *)

Section ManifestPatterns.

Variable w : World.
Variable inv : Invocation.

Lemma lengthIsZero_cons x l : lengthIsZero (Some (JArray (x :: l))) = false.
Proof. reflexivity. Qed.

Lemma processInput_strings l s :
  processInput w inv (Some (JArray (map JString l))) s
  = Ok tt {| exitCode := exitCode s;
             pending := pending s ++ flat_map (tasksFor w) l;
             trace := trace s ++ flat_map (eventsFor w inv) l |}.
Proof.
  unfold processInput. cbn [iterate lift]. unfold bind, ret. apply forEach_processItem.
Qed.

(** An array of strings is rendered as its elements, joined. *)
Lemma render_strings l :
  render w (Some (JArray (map JString l))) = Return (join l).
Proof.
  unfold render. cbn [ToString].
  match goal with
  | |- match ?elements (map JString l) with _ => _ end = _ =>
      assert (H : elements (map JString l) = Return l)
  end.
  { induction l as [| it rest IH]; [reflexivity |].
    cbn [map]. rewrite IH. reflexivity. }
  rewrite H. reflexivity.
Qed.

Lemma onReadFile_patterns found data parsed l s :
  readFile w found = Return data ->
  JSON_parse w data = Return parsed ->
  getProperty parsed JSON_CONFIG_PROPERTY_NAME = Return (Some (JArray (map JString l))) ->
  l <> [] ->
  onReadFile w inv found s
  = Ok tt {| exitCode := exitCode s;
             pending := pending s ++ flat_map (tasksFor w) l;
             trace := trace s ++ loadedLines inv found (join l)
                      ++ flat_map (eventsFor w inv) l |}.
Proof.
  intros Hread Hparse Hprop Hl.
  destruct l as [| it rest]; [contradiction |].
  unfold onReadFile, loadedLines, log_debug, log_info, debugLine, try_catch.
  unfold bind at 1 2 3 4. rewrite Hread. cbn [lift ret]. rewrite Hparse. cbn [lift ret].
  rewrite Hprop. cbn [lift ret map truthyJSON negb orb].
  rewrite lengthIsZero_cons.
  change (JString it :: map JString rest) with (map JString (it :: rest)).
  unfold bind at 1. rewrite render_strings. cbn [lift ret].
  destruct (VERBOSE inv); unfold bind, emit, ret; rewrite processInput_strings;
    cbn [exitCode pending trace]; rewrite <- ?app_assoc; reflexivity.
Qed.

End ManifestPatterns.

(** X7: with no positional argument and a manifest whose
    ["editorconfig-cli"] property is a non-empty array of strings, the
    one thing the loop can do first is run the callback of the read,
    which logs the patterns and then handles each of them as the module
    handles a positional argument: a stat request for one that resolves
    to an existing path, a glob for one that does not. *)
Theorem manifest_patterns_are_dispatched w inv m s data parsed patterns c :
  args inv = [] ->
  boot w inv = Running m s ->
  readFile w (pathResolve w (json (settings m))) = Return data ->
  JSON_parse w data = Return parsed ->
  getProperty parsed JSON_CONFIG_PROPERTY_NAME = Return (Some (JArray (map JString patterns))) ->
  patterns <> [] ->
  (step w inv (Running m s) c <->
   c = Running m
         {| exitCode := 0;
            pending := flat_map (tasksFor w) patterns;
            trace := trace s
                     ++ loadedLines inv (pathResolve w (json (settings m)))
                          (join patterns)
                     ++ flat_map (eventsFor w inv) patterns |}).
Proof.
  intros Hargs Hboot Hread Hparse Hprop Hpat.
  destruct (boot_without_args w inv Hargs Hboot) as (_ & Hp & Hx & _).
  set (found := pathResolve w (json (settings m))) in *.
  split.
  - intro Hs. inversion Hs as [m0 s0 before t after Hpend | m0 s0 Hpend]; subst.
    + rewrite Hp in Hpend. apply singleton_middle in Hpend.
      destruct Hpend as (-> & -> & ->). simpl runTask. unfold bind.
      rewrite (onReadFile_patterns w inv _ _ Hread Hparse Hprop Hpat).
      simpl. rewrite Hx. reflexivity.
    + rewrite Hp in Hpend. discriminate.
  - intros ->.
    pose proof (@step_task w inv m s [] (TReadFile found) [] Hp) as Hs.
    simpl runTask in Hs. unfold bind in Hs.
    rewrite (onReadFile_patterns w inv _ _ Hread Hparse Hprop Hpat) in Hs.
    simpl in Hs. rewrite Hx in Hs. exact Hs.
Qed.

Lemma manifest_patterns_are_dispatched_witness :
  exists m s,
    args Demo.noArguments = [] /\
    boot Demo.patternsWorld Demo.noArguments = Running m s /\
    readFile Demo.patternsWorld (pathResolve Demo.patternsWorld (json (settings m)))
    = Return "manifest" /\
    JSON_parse Demo.patternsWorld "manifest"
    = Return (JObject [("editorconfig-cli", JArray [JString "src/**"; JString "README.md"])]) /\
    getProperty (JObject [("editorconfig-cli", JArray [JString "src/**"; JString "README.md"])])
                JSON_CONFIG_PROPERTY_NAME
    = Return (Some (JArray (map JString ["src/**"; "README.md"]))) /\
    ["src/**"; "README.md"] <> [] /\
    (step Demo.patternsWorld Demo.noArguments (Running m s)
          (next Demo.patternsWorld Demo.noArguments (Running m s)) <->
     next Demo.patternsWorld Demo.noArguments (Running m s)
     = Running m
         {| exitCode := 0;
            pending := [TGlob "src/**"; TLstat "/work/README.md"];
            trace := trace s
                     ++ loadedLines Demo.noArguments
                          (pathResolve Demo.patternsWorld (json (settings m)))
                          "src/**,README.md"
                     ++ [Glob "src/**"; Lstat "/work/README.md"] |}).
Proof.
  assert (Hne : ["src/**"; "README.md"] <> (@nil string)) by discriminate.
  eexists. eexists.
  split; [reflexivity |]. split; [reflexivity |]. split; [reflexivity |].
  split; [reflexivity |]. split; [reflexivity |]. split; [exact Hne |].
  exact (@manifest_patterns_are_dispatched Demo.patternsWorld Demo.noArguments _ _
           "manifest"
           (JObject [("editorconfig-cli", JArray [JString "src/**"; JString "README.md"])])
           ["src/**"; "README.md"] _
           eq_refl eq_refl eq_refl eq_refl eq_refl Hne).
Defined.

(** X8: with no positional argument and a manifest that exists but
    cannot be read, or whose text is not JSON, the loop has exactly two
    turns: the callback of the read catches the error and logs it with
    [log.error], and the process then ends with exit code 0. No stat, no
    glob and no validation happens in any run. *)
Theorem manifest_failure_is_logged w inv m s e c :
  args inv = [] ->
  boot w inv = Running m s ->
  readFile w (pathResolve w (json (settings m))) = Raise e \/
  (exists data, readFile w (pathResolve w (json (settings m))) = Return data /\
                JSON_parse w data = Raise e) ->
  Reachable w inv c ->
  (c = Running m s \/
   c = Running m {| exitCode := 0; pending := [];
                    trace := trace s
                             ++ failureLines w inv (pathResolve w (json (settings m))) e |} \/
   c = Exited 0 (trace s ++ failureLines w inv (pathResolve w (json (settings m))) e
                 ++ [BeforeExit])) /\
  Forall (fun ev => consoleEvent ev \/ ev = BeforeExit \/ exists found, ev = ReadFile found)
         (traceOf c).
Proof.
  intros Hargs Hboot Hfail Hr.
  destruct (boot_without_args w inv Hargs Hboot) as (_ & Hp & Hx & Hc).
  set (found := pathResolve w (json (settings m))) in *.
  assert (Hcases :
    c = Running m s \/
    c = Running m {| exitCode := 0; pending := [];
                     trace := trace s ++ failureLines w inv found e |} \/
    c = Exited 0 (trace s ++ failureLines w inv found e ++ [BeforeExit])).
  { induction Hr as [| c c' Hr IH Hstep]; [left; exact Hboot |].
    destruct IH as [-> | [-> | ->]].
    - right. left.
      inversion Hstep as [m0 s0 before t after Hpend | m0 s0 Hpend]; subst.
      + rewrite Hp in Hpend. apply singleton_middle in Hpend.
        destruct Hpend as (-> & -> & ->). simpl runTask. unfold bind.
        rewrite (onReadFile_failure w inv found _ Hfail). simpl. rewrite Hx.
        reflexivity.
      + rewrite Hp in Hpend. discriminate.
    - right. right.
      inversion Hstep as [m0 s0 before t after Hpend | m0 s0 Hpend]; subst.
      + simpl in Hpend. destruct before; discriminate.
      + simpl. rewrite <- app_assoc. reflexivity.
    - inversion Hstep. }
  split; [exact Hcases |].
  assert (Hs : Forall (fun ev => consoleEvent ev \/ ev = BeforeExit \/
                                 exists f, ev = ReadFile f) (trace s)).
  { eapply Forall_impl; [| exact Hc]. intros ev [He | ->]; eauto. }
  assert (Hf : Forall (fun ev => consoleEvent ev \/ ev = BeforeExit \/
                                 exists f, ev = ReadFile f) (failureLines w inv found e)).
  { unfold failureLines, debugLine. destruct (VERBOSE inv); cbn [app];
      repeat (apply Forall_cons || apply Forall_nil); simpl; auto. }
  destruct Hcases as [-> | [-> | ->]]; simpl; auto.
  - apply Forall_app. auto.
  - apply Forall_app. split; auto. apply Forall_app. split; auto.
Qed.

Lemma manifest_failure_is_logged_witness :
  exists m s,
    args Demo.noArguments = [] /\
    boot Demo.brokenWorld Demo.noArguments = Running m s /\
    (readFile Demo.brokenWorld (pathResolve Demo.brokenWorld (json (settings m)))
     = Raise "SyntaxError: Unexpected token in JSON" \/
     exists data,
       readFile Demo.brokenWorld (pathResolve Demo.brokenWorld (json (settings m)))
       = Return data /\
       JSON_parse Demo.brokenWorld data = Raise "SyntaxError: Unexpected token in JSON") /\
    Reachable Demo.brokenWorld Demo.noArguments
      (run Demo.brokenWorld Demo.noArguments 2 (boot Demo.brokenWorld Demo.noArguments)) /\
    exitStatus (run Demo.brokenWorld Demo.noArguments 2
                  (boot Demo.brokenWorld Demo.noArguments)) = Some 0%Z /\
    Forall (fun ev => consoleEvent ev \/ ev = BeforeExit \/ exists found, ev = ReadFile found)
           (traceOf (run Demo.brokenWorld Demo.noArguments 2
                       (boot Demo.brokenWorld Demo.noArguments))).
Proof.
  pose proof (run_Reachable 2 (reach_boot Demo.brokenWorld Demo.noArguments)) as Hr.
  assert (Hfail :
    readFile Demo.brokenWorld
      (pathResolve Demo.brokenWorld DEFAULT_JSON_FILENAME)
    = Raise "SyntaxError: Unexpected token in JSON" \/
    exists data,
      readFile Demo.brokenWorld (pathResolve Demo.brokenWorld DEFAULT_JSON_FILENAME)
      = Return data /\
      JSON_parse Demo.brokenWorld data = Raise "SyntaxError: Unexpected token in JSON").
  { right. exists "{oops". split; reflexivity. }
  eexists. eexists.
  split; [reflexivity |]. split; [reflexivity |]. split; [exact Hfail |].
  split; [exact Hr |]. split; [reflexivity |].
  exact (proj2 (@manifest_failure_is_logged Demo.brokenWorld Demo.noArguments _ _ _ _
                  eq_refl eq_refl Hfail Hr)).
Defined.

(** ** The settings *)


(** X9: whenever the module body completes, the [editorconfig] setting
    handed to the validator is not [null]: it is the argument of the last
    [--editorconfig] as it was typed, or ['.editorconfig'] when there is
    none or it is empty, and in either case a file of that name exists. *)
Theorem editorconfig_setting_exists w inv m s :
  Reachable w inv (Running m s) ->
  editorconfig (settings m) = Some (editorconfigOf (options inv)) /\
  editorconfigOf (options inv) <> EmptyString /\
  existsSync w (pathResolve w (editorconfigOf (options inv))) = true.
Proof.
  revert m s. apply Reachable_Running with
    (J := fun m _ =>
       editorconfig (settings m) = Some (editorconfigOf (options inv)) /\
       editorconfigOf (options inv) <> EmptyString /\
       existsSync w (pathResolve w (editorconfigOf (options inv))) = true); [| auto].
  intros m s Hmain.
  destruct (settings_of_main w inv Hmain) as (He & Htruthy & Hres & _).
  split; [exact He |]. split.
  - intro Hempty. rewrite Hempty in Htruthy. discriminate.
  - apply truthy_resolve_exists. exact Hres.
Qed.

Lemma editorconfig_setting_exists_witness :
  exists m s,
    Reachable Demo.customWorld Demo.customConfig (Running m s) /\
    editorconfig (settings m) = Some "conf/lint.cfg" /\
    editorconfigOf (options Demo.customConfig) <> EmptyString /\
    existsSync Demo.customWorld
      (pathResolve Demo.customWorld (editorconfigOf (options Demo.customConfig))) = true.
Proof.
  pose proof (reach_boot Demo.customWorld Demo.customConfig) as Hr.
  remember (boot Demo.customWorld Demo.customConfig) as c eqn:E.
  vm_compute in E. subst c.
  eexists. eexists. split; [exact Hr |].
  exact (editorconfig_setting_exists Hr).
Defined.

(** X10: whenever the module body completes, [ignores] is the built-in
    pair of profiles when [-i] was not given and otherwise the argument
    of the last [-i] alone (nothing is accumulated), and [json] is the
    argument of the last [-j] unless that is missing or empty, when it is
    ['package.json']. *)
Theorem ignores_and_json_settings w inv m s :
  Reachable w inv (Running m s) ->
  ignores (settings m)
  = lastIgnores (options inv) (IgnoresList ["js-comments"; "html-comments"]) /\
  json (settings m) = jsonOf (options inv).
Proof.
  revert m s. apply Reachable_Running with
    (J := fun m _ =>
       ignores (settings m)
       = lastIgnores (options inv) (IgnoresList ["js-comments"; "html-comments"]) /\
       json (settings m) = jsonOf (options inv)); [| auto].
  intros m s Hmain.
  destruct (settings_of_main w inv Hmain) as (_ & _ & _ & Hi & Hj). auto.
Qed.

Lemma ignores_and_json_settings_witness :
  exists m s,
    Reachable Demo.customWorld Demo.customConfig (Running m s) /\
    ignores (settings m) = IgnoresValue "xml-comments" /\
    json (settings m) = "globs.json".
Proof.
  pose proof (reach_boot Demo.customWorld Demo.customConfig) as Hr.
  remember (boot Demo.customWorld Demo.customConfig) as c eqn:E.
  vm_compute in E. subst c.
  eexists. eexists. split; [exact Hr |].
  exact (ignores_and_json_settings Hr).
Defined.

(** ** The lines of a report *)

Lemma forEach_lines A (l : list A) (body : A -> M unit) (f : A -> list Event) :
  (forall x s,
     body x s = Ok tt {| exitCode := exitCode s;
                         pending := pending s;
                         trace := trace s ++ f x |}) ->
  forall s,
    forEach l body s = Ok tt {| exitCode := exitCode s;
                                pending := pending s;
                                trace := trace s ++ flat_map f l |}.
Proof.
  intro Hbody. induction l as [| x rest IH]; intro s; cbn [forEach flat_map].
  - rewrite app_nil_r. destruct s; reflexivity.
  - unfold bind. rewrite Hbody, IH. cbn [exitCode pending trace].
    rewrite <- app_assoc. reflexivity.
Qed.

Lemma flat_map_singleton A B (f : A -> B) (l : list A) :
  flat_map (fun x => [f x]) l = map f l.
Proof. induction l; simpl; congruence. Qed.

(** X11: with [types.WARNING] undefined, as under Node, the report
    printer never fails, starts nothing and leaves the exit code as it
    is. It prints, with [console.warn] and in the order of the report,
    one header line for every file of the report, also for one without
    entries, followed by one line for each of its entries, the type of
    every entry in green. *)
Theorem report_is_printed_line_by_line w report s :
  types_WARNING w = None ->
  printReport w report s
  = Ok tt {| exitCode := exitCode s;
             pending := pending s;
             trace := trace s ++ reportLines w report |} /\
  List.length (reportLines w report)
  = List.length report + List.length (entries report).
Proof.
  intro Hundefined. split.
  - unfold printReport, reportLines.
    apply forEach_lines
      with (f := fun file_info =>
                   headerLine w (fst file_info)
                   :: flat_map (fun key_line => map (entryLine w) (snd key_line))
                               (snd file_info)).
    clear s. intros [filename info] s. cbn [fst snd].
    unfold bind at 1. unfold log_error at 1, emit at 1.
    rewrite forEach_lines
      with (f := fun key_line => map (entryLine w) (snd key_line)).
    + cbn [exitCode pending trace]. rewrite <- app_assoc. reflexivity.
    + clear s. intros [key errs] s. cbn [snd]. rewrite <- flat_map_singleton.
      apply forEach_lines. clear s. intros err s.
      rewrite (isWarning_undefined w err Hundefined).
      unfold bind, log_error, emit, ret, entryLine. reflexivity.
  - unfold reportLines, entries. clear. induction report as [| [filename info] rest IH]; simpl; auto.
    rewrite !length_app, IH. simpl.
    assert (Hinfo : List.length (flat_map (fun key_line => map (entryLine w) (snd key_line)) info)
                    = List.length (flat_map (fun key_line : string * list LintError =>
                                               snd key_line) info)).
    { clear. induction info as [| [key errs] info IH]; simpl; auto.
      rewrite !length_app, length_map, IH. reflexivity. }
    rewrite Hinfo. lia.
Qed.

Lemma report_is_printed_line_by_line_witness :
  types_WARNING Demo.warningWorld = None /\
  printReport Demo.warningWorld Demo.oneWarning initial
  = Ok tt {| exitCode := exitCode initial;
             pending := pending initial;
             trace := trace initial ++ reportLines Demo.warningWorld Demo.oneWarning |} /\
  List.length (reportLines Demo.warningWorld Demo.oneWarning)
  = List.length Demo.oneWarning + List.length (entries Demo.oneWarning).
Proof.
  split; [reflexivity |].
  exact (report_is_printed_line_by_line Demo.warningWorld Demo.oneWarning initial eq_refl).
Defined.

(** ** A manifest with something else than a pattern *)

Section BadPattern.

Variable w : World.
Variable inv : Invocation.

Lemma forEach_app A (l1 l2 : list A) (body : A -> M unit) s :
  forEach (l1 ++ l2) body s
  = match forEach l1 body s with
    | Ok _ s1 => forEach l2 body s1
    | Throw e s1 => Throw e s1
    | Exit code s1 => Exit code s1
    end.
Proof.
  revert s. induction l1 as [| x rest IH]; intro s; cbn [forEach app]; auto.
  unfold bind. destruct (body x s); auto.
Qed.

Lemma processItem_not_string bad s :
  (forall it, bad <> JString it) -> processItem w inv bad s = Throw ERR_INVALID_ARG_TYPE s.
Proof.
  intro Hbad. destruct bad; try reflexivity. exfalso. eapply Hbad. reflexivity.
Qed.

Lemma lengthIsZero_nonempty l : l <> [] -> lengthIsZero (Some (JArray l)) = false.
Proof. destruct l; [contradiction | reflexivity]. Qed.

End BadPattern.

(** X13: when the array of the manifest holds something that is not a
    string, and the array can be converted to a string for the log line
    (no object in it has a key ["toString"] of its own), the callback of
    the read logs the patterns and handles those before the odd element
    as usual, then stops: the [TypeError] of [path.resolve] is caught and
    logged as a failure to read the JSON file, the patterns after it are
    never looked at, and the callback returns. *)
Theorem manifest_stops_at_non_string w inv found data parsed good bad rest text s :
  readFile w found = Return data ->
  JSON_parse w data = Return parsed ->
  getProperty parsed JSON_CONFIG_PROPERTY_NAME
  = Return (Some (JArray (map JString good ++ bad :: rest))) ->
  (forall it, bad <> JString it) ->
  render w (Some (JArray (map JString good ++ bad :: rest))) = Return text ->
  onReadFile w inv found s
  = Ok tt {| exitCode := exitCode s;
             pending := pending s ++ flat_map (tasksFor w) good;
             trace := trace s
                      ++ loadedLines inv found text
                      ++ flat_map (eventsFor w inv) good
                      ++ [ConsoleWarn (red w ("Failed to read JSON file: "
                                              ++ ERR_INVALID_ARG_TYPE)%string)] |}.
Proof.
  intros Hread Hparse Hprop Hbad Hrender.
  unfold onReadFile, loadedLines, log_debug, log_info, log_error, debugLine, try_catch.
  unfold bind at 1 2 3 4. rewrite Hread. cbn [lift ret]. rewrite Hparse. cbn [lift ret].
  rewrite Hprop. cbn [lift ret truthyJSON negb orb].
  rewrite lengthIsZero_nonempty by (destruct good; discriminate).
  unfold bind at 1. rewrite Hrender. cbn [lift ret].
  unfold processInput. cbn [iterate lift].
  destruct (VERBOSE inv); unfold bind, emit, ret;
    rewrite forEach_app, forEach_processItem; cbn [forEach];
    unfold bind; rewrite processItem_not_string by exact Hbad;
    cbn [exitCode pending trace]; rewrite <- ?app_assoc; reflexivity.
Qed.

Lemma manifest_stops_at_non_string_witness :
  readFile Demo.mixedUpWorld "/work/package.json" = Return "manifest" /\
  JSON_parse Demo.mixedUpWorld "manifest"
  = Return (JObject [("editorconfig-cli",
                      JArray [JString "README.md"; JBool true; JString "src/**"])]) /\
  getProperty (JObject [("editorconfig-cli",
                         JArray [JString "README.md"; JBool true; JString "src/**"])])
              JSON_CONFIG_PROPERTY_NAME
  = Return (Some (JArray (map JString ["README.md"] ++ JBool true :: [JString "src/**"]))) /\
  (forall it, JBool true <> JString it) /\
  render Demo.mixedUpWorld
         (Some (JArray (map JString ["README.md"] ++ JBool true :: [JString "src/**"])))
  = Return "README.md,true,src/**" /\
  exists s',
    onReadFile Demo.mixedUpWorld Demo.noArguments "/work/package.json" initial = Ok tt s' /\
    pending s' = [TLstat "/work/README.md"].
Proof.
  assert (Hbad : forall it, JBool true <> JString it) by (intros it H; discriminate H).
  split; [reflexivity |]. split; [reflexivity |]. split; [reflexivity |].
  split; [exact Hbad |]. split; [reflexivity |].
  eexists. split.
  - exact (@manifest_stops_at_non_string Demo.mixedUpWorld Demo.noArguments
             "/work/package.json" "manifest"
             (JObject [("editorconfig-cli",
                        JArray [JString "README.md"; JBool true; JString "src/**"])])
             ["README.md"] (JBool true) [JString "src/**"] "README.md,true,src/**" initial
             eq_refl eq_refl eq_refl Hbad eq_refl).
  - reflexivity.
Defined.

(** ** A directory on the command line *)


